(** * Manitto matching service: model of [backend/app.py] and its properties

    The service keeps two JSON documents (participants, matches), pairs the
    participants of every table into gift givers (manitto) and receivers
    (manitti), and lets a participant look the own receiver up.

    Strings are [String.string]; a character stands for a code point below
    256, the range in which [strip] and [lower] below agree with Python's
    [str.strip] and [str.lower].  Dictionaries keep insertion order, as
    Python's do, and are association lists. *)

From Stdlib Require Import ZArith QArith.QArith_base Ascii String.
From stdpp Require Import base numbers option list strings gmap fin_maps.

Local Open Scope string_scope.
Local Open Scope list_scope.
Local Open Scope nat_scope.

(** ** Records (app.py, lines 21-35) *)

Record Participant := mkParticipant {
  table : Z;
  name : string;
  email : string;
  birthdate : string
}.

Record Match := mkMatch {
  match_table : Z;
  manitto_name : string;
  manitto_email : string;
  manitti_name : string;
  manitti_email : string
}.

#[global] Instance Participant_eq_dec : EqDecision Participant.
Proof. solve_decision. Defined.

#[global] Instance Match_eq_dec : EqDecision Match.
Proof. solve_decision. Defined.

(** ** Ordered dictionaries with integer keys

    [grouped.setdefault(k, []).append(x)]: the list stored under [k] grows by
    [x]; a key seen for the first time is added at the end. *)

Fixpoint setdefault_append {A} (grouped : list (Z * list A)) (k : Z) (x : A)
  : list (Z * list A) :=
  match grouped with
  | [] => [(k, [x])]
  | (k', v) :: rest =>
      if decide (k' = k) then (k', v ++ [x]) :: rest
      else (k', v) :: setdefault_append rest k x
  end.

(** app.py, lines 103-107. *)
Definition group_by_table (participants : list Participant)
  : list (Z * list Participant) :=
  foldl (λ grouped p, setdefault_append grouped (table p) p) [] participants.

(** The [ValueError] of line 119; its message interpolates the table number. *)
Inductive MatchError :=
  | TableTooSmall (table_no : Z).

(** ** Normalisation (app.py, lines 51-61) *)

(** The characters [str.isspace] accepts among the code points below 256. *)
Definition is_space (c : ascii) : bool :=
  let n := nat_of_ascii c in
  ((9 <=? n) && (n <=? 13)) || ((28 <=? n) && (n <=? 32))
  || (n =? 133) || (n =? 160).

Fixpoint lstrip (s : string) : string :=
  match s with
  | EmptyString => EmptyString
  | String c s' => if is_space c then lstrip s' else s
  end.

Definition rstrip (s : string) : string := String.rev (lstrip (String.rev s)).

(** [s.strip()] *)
Definition strip (s : string) : string := rstrip (lstrip s).

(** [str.lower] on one code point below 256: A-Z and the accented capitals
    192-222 (but the multiplication sign, 215) move up by 32. *)
Definition lower_char (c : ascii) : ascii :=
  let n := nat_of_ascii c in
  if ((65 <=? n) && (n <=? 90))
     || ((192 <=? n) && (n <=? 222) && negb (n =? 215))
  then ascii_of_nat (n + 32) else c.

Fixpoint lower (s : string) : string :=
  match s with
  | EmptyString => EmptyString
  | String c s' => String (lower_char c) (lower s')
  end.

#[global] Arguments strip : simpl never.
#[global] Arguments lower : simpl never.

Definition normalize_email (email : string) : string := lower (strip email).
Definition normalize_name (name : string) : string := strip name.
Definition normalize_birthdate (birthdate : string) : string := strip birthdate.

#[global] Arguments normalize_email : simpl never.
#[global] Arguments normalize_name : simpl never.
#[global] Arguments normalize_birthdate : simpl never.

(** ** JSON values, as [request.get_json] hands them to a handler *)

Inductive pyfloat :=
  | FFinite (q : Q)
  | FInf (negative : bool)
  | FNaN.

#[local] Unset Elimination Schemes.
Inductive json :=
  | JNull
  | JBool (b : bool)
  | JInt (z : Z)
  | JFloat (f : pyfloat)
  | JStr (s : string)
  | JArr (items : list json)
  | JObj (fields : list (string * json)).
#[local] Set Elimination Schemes.

(** The exceptions of the interpreter the handlers can meet. *)
Inductive exn :=
  | KeyError
  | ValueError
  | TypeError
  | OverflowError
  | AttributeError.

(** Truth value of a JSON value ([not v], [v or d]). *)
Definition truthy (v : json) : bool :=
  match v with
  | JNull => false
  | JBool b => b
  | JInt z => negb (z =? 0)%Z
  | JFloat (FFinite q) => negb (Qnum q =? 0)%Z
  | JFloat _ => true
  | JStr s => negb (String.eqb s "")
  | JArr items => match items with [] => false | _ => true end
  | JObj fields => match fields with [] => false | _ => true end
  end.

(** Lookup in a parsed object, which holds every key once. *)
Fixpoint obj_get (fields : list (string * json)) (k : string) : option json :=
  match fields with
  | [] => None
  | (k', v) :: rest => if decide (k' = k) then Some v else obj_get rest k
  end.

(** [row[k]]: KeyError for an object without the key, TypeError for a value
    that is no object (a list or string wants an integer index, the others
    cannot be subscripted). *)
Definition subscript (row : json) (k : string) : exn + json :=
  match row with
  | JObj fields =>
      match obj_get fields k with
      | Some v => inr v
      | None => inl KeyError
      end
  | _ => inl TypeError
  end.

(** [d.get(k)] on a dictionary: a missing key and a JSON null both read as
    [None]. *)
Definition field (fields : list (string * json)) (k : string) : option json :=
  match obj_get fields k with
  | Some JNull => None
  | r => r
  end.

(** [body.get(k)]: only an object has [get]. *)
Definition dict_get (body : json) (k : string) : exn + option json :=
  match body with
  | JObj fields => inr (field fields k)
  | _ => inl AttributeError
  end.

Definition digit_of (c : ascii) : option Z :=
  let n := nat_of_ascii c in
  if (48 <=? n) && (n <=? 57) then Some (Z.of_nat (n - 48)) else None.

(** The blanks [int] skips around an integer literal: tab to carriage
    return and the space, and among the code points above 127 the next-line
    and no-break space characters.  The separators 28-31, which [str.strip]
    removes, are no blanks here. *)
Definition is_int_space (c : ascii) : bool :=
  let n := nat_of_ascii c in
  ((9 <=? n) && (n <=? 13)) || (n =? 32) || (n =? 133) || (n =? 160).

Fixpoint skip_blanks (s : string) : string :=
  match s with
  | EmptyString => EmptyString
  | String c s' => if is_int_space c then skip_blanks s' else s
  end.

Fixpoint all_blank (s : string) : bool :=
  match s with
  | EmptyString => true
  | String c s' => is_int_space c && all_blank s'
  end.

(** Digits of an integer literal; single underscores may separate digits,
    and blanks may follow the last digit up to the end of the string. *)
Fixpoint parse_digits (acc : Z) (after_digit : bool) (s : string) : option Z :=
  match s with
  | EmptyString => if after_digit then Some acc else None
  | String c s' =>
      if Ascii.eqb c "_"
      then (if after_digit then parse_digits acc false s' else None)
      else match digit_of c with
           | Some d => parse_digits (acc * 10 + d)%Z true s'
           | None => if after_digit && all_blank s then Some acc else None
           end
  end.

Fixpoint count_digits (s : string) : nat :=
  match s with
  | EmptyString => 0
  | String c s' =>
      match digit_of c with
      | Some _ => S (count_digits s')
      | None => count_digits s'
      end
  end.

(** The interpreter refuses to convert a decimal string of more digits than
    [sys.get_int_max_str_digits()], 4300 unless the installation changes it;
    leading zeros count, underscores do not. *)
Definition int_max_str_digits : nat := 4300.

(** The digits of an integer literal and the blanks behind them. *)
Definition int_digits (digits : string) : option Z :=
  if decide (count_digits digits ≤ int_max_str_digits)
  then parse_digits 0 false digits
  else None.

(** [int(s)] for a string: blanks around, an optional sign, decimal digits;
    [None] stands for the ValueError of any other string. *)
Definition int_of_string (s : string) : option Z :=
  match skip_blanks s with
  | EmptyString => None
  | String c r =>
      if Ascii.eqb c "-" then Z.opp <$> int_digits r
      else if Ascii.eqb c "+" then int_digits r
      else int_digits (String c r)
  end.

(** [int(v)] *)
Definition py_int (v : json) : exn + Z :=
  match v with
  | JInt z => inr z
  | JBool b => inr (if b then 1 else 0)%Z
  | JFloat (FFinite q) => inr (Z.quot (Qnum q) (Zpos (Qden q)))
  | JFloat (FInf _) => inl OverflowError
  | JFloat FNaN => inl ValueError
  | JStr s =>
      match int_of_string s with
      | Some z => inr z
      | None => inl ValueError
      end
  | JNull | JArr _ | JObj _ => inl TypeError
  end.

(** ** The record store (app.py, lines 38-48 and 64-100)

    [save_json] writes an array of flat records and [load_json] reads it
    back, or the empty array when the file does not exist; integers and
    strings survive the round trip unchanged, so a document is modelled by
    the list of its records.

    A write is taken to succeed.  A call of [save_json] that raises (a
    string [json.dump] cannot encode, a full disk) leaves its file truncated
    or half written and ends the request with an exception nobody catches,
    status 500; no string of this model makes it raise.  The properties of
    the store over several requests are therefore stated for requests that
    are answered by the handler itself. *)

Record Store := mkStore {
  participants_doc : list Participant;
  matches_doc : list Match
}.

Definition load_participants (st : Store) : list Participant :=
  (λ row, {| table := table row;
             name := name row;
             email := normalize_email (email row);
             birthdate := normalize_birthdate (birthdate row) |})
  <$> participants_doc st.

(** One row of the match document as [load_matches] reads it. *)
Definition loaded_match (m : Match) : Match :=
  {| match_table := match_table m;
     manitto_name := manitto_name m;
     manitto_email := normalize_email (manitto_email m);
     manitti_name := manitti_name m;
     manitti_email := normalize_email (manitti_email m) |}.

Definition load_matches (st : Store) : list Match :=
  loaded_match <$> matches_doc st.

Definition save_participants (participants : list Participant) (st : Store)
  : Store :=
  {| participants_doc := participants; matches_doc := matches_doc st |}.

Definition save_matches (matches : list Match) (st : Store) : Store :=
  {| participants_doc := participants_doc st; matches_doc := matches |}.

(** ** Responses *)

(** The error texts of the handlers. *)
Inductive ErrorText :=
  | ErrNotAList
  | ErrBadFormat (e : exn)
  | ErrSeedNotNumber
  | ErrNoParticipants
  | ErrMatching (e : MatchError)
  | ErrFieldsRequired
  | ErrNameNotInRoster
  | ErrBirthdateMismatch
  | ErrNotMatchedYet
  | ErrNoMatchEntry.

(** The gift guide of [lookup]: a fixed text around the receiver's name. *)
Inductive GiftMessage :=
  | GiftGuide (manitti : string).

Inductive Body :=
  | BError (msg : ErrorText)
  | BUploaded (count : nat)
  | BMatched (count : nat)
  | BResults (matches : list Match)
  | BLookup (your_name : string) (table_no : Z)
            (manitti_name manitti_email : string) (message : GiftMessage).

(** A handler answers with a status and a body, or dies with an exception
    nobody catches, which the framework turns into status 500. *)
Inductive Response :=
  | Reply (status : nat) (body : Body)
  | Unhandled (e : exn).

Definition status_of (r : Response) : nat :=
  match r with
  | Reply status _ => status
  | Unhandled _ => 500
  end.

(** ** Static pages (app.py, lines 247-281)

    A handler answers with a file of the front-end folder; the model gives
    the name it hands to [send_from_directory].  Which files the folder
    holds is a parameter: [file_exists target] stands for
    [os.path.exists(os.path.join(static_root, target))]. *)

(** [s.lstrip(c)] and [s.rstrip(c)] for one character [c]. *)
Fixpoint lstrip_char (c : ascii) (s : string) : string :=
  match s with
  | EmptyString => EmptyString
  | String a s' => if Ascii.eqb a c then lstrip_char c s' else s
  end.

Definition rstrip_char (c : ascii) (s : string) : string :=
  String.rev (lstrip_char c (String.rev s)).

Definition serve_admin : string := "admin.html".

Definition serve_employee : string := "index.html".

Definition serve_frontend (file_exists : string → bool) (path : string)
  : string :=
  let normalized :=
    if String.eqb path "" then "" else rstrip_char "/" path in
  if String.eqb normalized "admin" || String.eqb normalized "admin.html"
  then "admin.html"
  else if String.eqb normalized "employee"
          || String.eqb normalized "employee.html"
  then "index.html"
  else
    let target := if String.eqb normalized "" then "index.html"
                  else normalized in
    if file_exists target then target else "index.html".

(** ** Vocabulary of the properties *)

(** The same grouping for any element type and key; [group_by_table] is
    [group_by table]. *)
Definition group_by {A} (key : A → Z) (l : list A) : list (Z * list A) :=
  foldl (λ grouped x, setdefault_append grouped (key x) x) [] l.

(** A group with its members renamed by [f]. *)
Definition relabel {A B} (f : A → B) (gr : Z * list A) : Z * list B :=
  (gr.1, f <$> gr.2).

(** The participants with their positions in the list, which tell two equal
    records apart. *)
Definition tagged (participants : list Participant)
  : list (nat * Participant) :=
  imap (λ i p, (i, p)) participants.

(** [gives ps i j m]: [m] is the match in which the participant at position
    [i] of [ps] is the manitto of the participant at position [j]. *)
Definition gives (participants : list Participant) (i j : nat) (m : Match)
  : Prop :=
  ∃ a b, participants !! i = Some a ∧ participants !! j = Some b
         ∧ m = {| match_table := table a;
                  manitto_name := name a; manitto_email := email a;
                  manitti_name := name b; manitti_email := email b |}.

(** The match in which [a] gives to [b] at table [table_no], field by
    field. *)
Definition gift (table_no : Z) (a b : Participant) : Match :=
  {| match_table := table_no;
     manitto_name := name a; manitto_email := email a;
     manitti_name := name b; manitti_email := email b |}.

(** What a match record shows of its giver and of its receiver, and what a
    participant record shows of a participant. *)
Definition manitto (m : Match) : Z * string * string :=
  (match_table m, manitto_name m, manitto_email m).
Definition manitti (m : Match) : Z * string * string :=
  (match_table m, manitti_name m, manitti_email m).
Definition person (p : Participant) : Z * string * string :=
  (table p, name p, email p).

(** Every group is non-empty and holds members of its own key only. *)
Definition keyed {A} (key : A → Z) (grouped : list (Z * list A)) : Prop :=
  Forall (λ gr, gr.2 ≠ [] ∧ Forall (λ x, key x = gr.1) gr.2) grouped.

(** What every shuffled table of a successful run looks like. *)
Definition good_block {A} (key : A → Z) (l : list A) (sh : Z * list A)
  : Prop :=
  2 ≤ length sh.2 ∧ NoDup sh.2
  ∧ Forall (λ x, key x = sh.1 ∧ x ∈ l) sh.2.

(** The elements of a list in the order in which they first occur. *)
Fixpoint first_seen (l : list Z) : list Z :=
  match l with
  | [] => []
  | x :: l' => x :: filter (λ y, y ≠ x) (first_seen l')
  end.

(** A participant record whose fields are in normal form. *)
Definition normalized (p : Participant) : Prop :=
  normalize_name (name p) = name p
  ∧ normalize_email (email p) = email p
  ∧ normalize_birthdate (birthdate p) = birthdate p.

(** *** Strings as lists of characters *)

(** [lstrip] on the characters of a string. *)
Fixpoint skip_spaces (l : list ascii) : list ascii :=
  match l with
  | [] => []
  | c :: l' => if is_space c then skip_spaces l' else l
  end.

(** [lstrip_char] on the characters of a string. *)
Fixpoint skip_char (c : ascii) (l : list ascii) : list ascii :=
  match l with
  | [] => []
  | a :: l' => if Ascii.eqb a c then skip_char c l' else l
  end.

(** A string that neither begins nor ends with a blank character. *)
Definition trimmed (s : string) : Prop :=
  (∀ c, head (list_ascii_of_string s) = Some c → is_space c = false)
  ∧ (∀ c, last (list_ascii_of_string s) = Some c → is_space c = false).

(** A string of blank characters only. *)
Definition blank (s : string) : Prop :=
  Forall (λ c, is_space c = true) (list_ascii_of_string s).

(** *** Decimal numerals *)

(** The numeral with the decimal digits [ds], most significant first, and
    the integer it spells. *)
Definition digit_char (d : nat) : ascii := ascii_of_nat (48 + d).

Fixpoint numeral (ds : list nat) : string :=
  match ds with
  | [] => EmptyString
  | d :: ds' => String (digit_char d) (numeral ds')
  end.

Definition numeral_value (ds : list nat) : Z :=
  foldl (λ acc d, acc * 10 + Z.of_nat d)%Z 0%Z ds.

(** A list of decimal digits. *)
Definition decimal (ds : list nat) : Prop := Forall (λ d, d < 10) ds.

Inductive Sign :=
  | NoSign
  | Plus
  | Minus.

Definition sign_string (sg : Sign) : string :=
  match sg with
  | NoSign => ""
  | Plus => "+"
  | Minus => "-"
  end.

Definition sign_value (sg : Sign) (z : Z) : Z :=
  match sg with
  | Minus => (- z)%Z
  | _ => z
  end.

(** A string of the blank characters an integer literal may stand between:
    tab, line feed, vertical tab, form feed, carriage return, space, next
    line and no-break space. *)
Definition int_blanks (s : string) : Prop :=
  Forall (λ c, nat_of_ascii c ∈ [9; 10; 11; 12; 13; 32; 133; 160])
         (list_ascii_of_string s).

(** ** Sample data

    A small generator and rosters on which the model is run below.  The
    generator is a linear congruence; [random.seed] takes the absolute value
    of an integer seed. *)

Module Sample.

Definition seed_rng (s : Z) : nat := Z.to_nat (Z.abs s).

Definition randbelow (n : nat) (g : nat) : nat * nat :=
  (g mod n, (7 * g + 3) mod 101).

(** A rendering for the values the samples do not pass to [str]. *)
Definition py_repr (v : json) : string :=
  match v with
  | JNull => "None"
  | JBool true => "True"
  | JBool false => "False"
  | _ => ""
  end.

Definition alice := mkParticipant 1 "Alice" "a@x.com" "900101".
Definition bob := mkParticipant 1 "Bob" "b@x.com" "900202".
Definition carol := mkParticipant 2 "Carol" "c@x.com" "910303".
Definition dave := mkParticipant 2 "Dave" "d@x.com" "920404".
Definition erin := mkParticipant 2 "Erin" "e@x.com" "930505".
Definition zed := mkParticipant 3 "Zed" "z@x.com" "940606".

(** Table 1 with two members, table 2 with three. *)
Definition roster : list Participant := [alice; carol; bob; dave; erin].

(** Table 3 has a single member. *)
Definition lonely_roster : list Participant := [alice; bob; zed].

Definition row (t : Z) (n e b : string) : json :=
  JObj [("table", JInt t); ("name", JStr n); ("email", JStr e);
        ("birthdate", JStr b)].

(** The upload of the two participants of table 1. *)
Definition payload : json :=
  JArr [row 1 "Alice" "A@X.com" "900101"; row 1 "Bob" "b@x.com" "900202"].

Definition old_store : Store :=
  {| participants_doc := [zed];
     matches_doc := [mkMatch 3 "Zed" "z@x.com" "Zed" "z@x.com"] |}.


(** The store after [payload] was uploaded over [old_store], and after the
    participants were then matched with seed 7. *)
Definition uploaded_store : Store :=
  {| participants_doc := [alice; bob]; matches_doc := [] |}.

Definition matched_store : Store :=
  {| participants_doc := [alice; bob];
     matches_doc := [mkMatch 1 "Alice" "a@x.com" "Bob" "b@x.com";
                     mkMatch 1 "Bob" "b@x.com" "Alice" "a@x.com"] |}.


Definition bob_lookup : list (string * json) :=
  [("name", JStr "Bob"); ("birthdate", JStr " 900202 ")].


(** The same person entered twice at one table. *)
Definition twice_roster : list Participant := [alice; alice].

(** What [roster] is matched to with seed 7. *)
Definition roster_matches : list Match :=
  [mkMatch 1 "Alice" "a@x.com" "Bob" "b@x.com";
   mkMatch 1 "Bob" "b@x.com" "Alice" "a@x.com";
   mkMatch 2 "Erin" "e@x.com" "Carol" "c@x.com";
   mkMatch 2 "Carol" "c@x.com" "Dave" "d@x.com";
   mkMatch 2 "Dave" "d@x.com" "Erin" "e@x.com"].

(** [roster] with other birthdates. *)
Definition roster_reborn : list Participant :=
  (λ p, mkParticipant (table p) (name p) (email p) "000000") <$> roster.

(** An upload whose second row has no table; a third row follows. *)
Definition good_rows : list json := [row 1 "Alice" "A@X.com" "900101"].
Definition bad_row : json :=
  JObj [("name", JStr "Bob"); ("email", JStr "b@x.com");
        ("birthdate", JStr "900202")].
Definition more_rows : list json := [JInt 5].

Definition bob_fields : list (string * json) :=
  [("table", JInt 1); ("name", JStr "Bob"); ("email", JStr "b@x.com");
   ("birthdate", JStr "900202")].

Definition seed_7 : option json := Some (JObj [("seed", JInt 7)]).

End Sample.

(** ** The random source

    [random] is Python's library module; its generator is a parameter of the
    development: a state, the state [random.seed(n)] installs, and
    [randbelow n], which draws a number below [n] and advances the state. *)

Section Engine.

Variable Rng : Type.
Variable seed_rng : Z → Rng.
Variable randbelow : nat → Rng → nat * Rng.

(** [str(v)] on a JSON value that is no string (the interpreter's rendering
    of numbers, booleans, [None], lists and dictionaries). *)
Variable py_repr : json → string.

(** [x[i], x[j] = x[j], x[i]].  [random.shuffle] only draws [j <= i], so
    both positions exist; for a position outside the list (where Python
    raises IndexError) the model leaves the list as it is. *)
Definition swap {A} (i j : nat) (x : list A) : list A :=
  match x !! i, x !! j with
  | Some xi, Some xj => <[j:=xi]> (<[i:=xj]> x)
  | _, _ => x
  end.

(** [for i in reversed(range(1, len(x))): j = randbelow(i + 1); swap]. *)
Fixpoint shuffle_loop {A} (i : nat) (x : list A) (g : Rng) : list A * Rng :=
  match i with
  | 0 => (x, g)
  | S i' =>
      let '(j, g') := randbelow (i + 1) g in
      shuffle_loop i' (swap i j x) g'
  end.

Definition shuffle {A} (x : list A) (g : Rng) : list A * Rng :=
  shuffle_loop (length x - 1) x g.

(** The same with the bounds checks of the interpreter: [None] stands for
    the IndexError of a position outside the list. *)
Definition swap_checked {A} (i j : nat) (x : list A) : option (list A) :=
  xi ← x !! i; xj ← x !! j; Some (<[j:=xi]> (<[i:=xj]> x)).

Fixpoint shuffle_loop_checked {A} (i : nat) (x : list A) (g : Rng)
  : option (list A * Rng) :=
  match i with
  | 0 => Some (x, g)
  | S i' =>
      let '(j, g') := randbelow (i + 1) g in
      x' ← swap_checked i j x; shuffle_loop_checked i' x' g'
  end.

Definition shuffle_checked {A} (x : list A) (g : Rng) : option (list A * Rng) :=
  shuffle_loop_checked (length x - 1) x g.

(** ** The matching engine (app.py, lines 110-143) *)

(** Lines 124-130: the giver/receiver pairs of one shuffled table.  The
    position [(idx + 1) mod length shuffled] always lies inside the list, so
    the lookup never falls back on its default ([make_pairs_lookup_inv]). *)
Definition make_pairs {A} (shuffled : list A) : list (A * A) :=
  match shuffled with
  | [s0; s1] => [(s0, s1); (s1, s0)]
  | _ =>
      imap (λ idx manitto,
              (manitto,
               default manitto (shuffled !! ((idx + 1) mod length shuffled))))
           shuffled
  end.

(** The position the member at position [i] of a shuffled table of [n]
    gives to (line 129). *)
Definition next_pos (n i : nat) : nat := (i + 1) mod n.

(** Lines 132-141. *)
Definition pair_match (table_no : Z) (pr : Participant * Participant) : Match :=
  let '(manitto, manitti) := pr in
  {| match_table := table_no;
     manitto_name := name manitto;
     manitto_email := email manitto;
     manitti_name := name manitti;
     manitti_email := email manitti |}.




(** The loop of lines 117-141 over the tables in dictionary order. *)
Fixpoint match_groups (groups : list (Z * list Participant))
    (results : list Match) (g : Rng) : (MatchError + list Match) * Rng :=
  match groups with
  | [] => (inr results, g)
  | (table_no, members) :: rest =>
      if decide (length members < 2) then (inl (TableTooSmall table_no), g)
      else
        let '(shuffled, g') := shuffle members g in
        let pairs := make_pairs shuffled in
        match_groups rest (results ++ (pair_match table_no <$> pairs)) g'
  end.

(** [seed] is [None] when the caller gives none; the generator of the
    process is then used as it stands. *)
Definition make_matches (participants : list Participant) (seed : option Z)
    (g : Rng) : (MatchError + list Match) * Rng :=
  let g0 := match seed with Some s => seed_rng s | None => g end in
  match_groups (group_by_table participants) [] g0.

(** The matches of one table whose members are named through [f]. *)
Definition matches_of {A} (f : A → Participant) (block : Z * list A)
  : list Match :=
  pair_match block.1 <$> make_pairs (f <$> block.2).

(** A link between two participants with their positions, as a match and as
    a pair of positions. *)
Definition link_match (lk : (nat * Participant) * (nat * Participant))
  : Match :=
  pair_match (table lk.1.2) (lk.1.2, lk.2.2).

Definition link_pos (lk : (nat * Participant) * (nat * Participant))
  : nat * nat :=
  (lk.1.1, lk.2.1).

(** ** The handlers (app.py, lines 146-244) *)

(** [str(v)] *)
Definition py_str (v : json) : string :=
  match v with
  | JStr s => s
  | _ => py_repr v
  end.

(** One turn of the loop of lines 154-162: the fields are read and coerced
    from left to right, the first exception ends the row. *)
Definition parse_row (row : json) : exn + Participant :=
  match subscript row "table" with
  | inl e => inl e
  | inr t =>
  match py_int t with
  | inl e => inl e
  | inr table_v =>
  match subscript row "name" with
  | inl e => inl e
  | inr n =>
  match subscript row "email" with
  | inl e => inl e
  | inr em =>
  match subscript row "birthdate" with
  | inl e => inl e
  | inr b =>
      inr {| table := table_v;
             name := strip (py_str n);
             email := normalize_email (py_str em);
             birthdate := normalize_birthdate (py_str b) |}
  end end end end end.

Fixpoint parse_rows (payload : list json) (participants : list Participant)
  : exn + list Participant :=
  match payload with
  | [] => inr participants
  | row :: rest =>
      match parse_row row with
      | inl e => inl e
      | inr p => parse_rows rest (participants ++ [p])
      end
  end.

(** POST /api/admin/upload *)
Definition admin_upload (payload : json) (st : Store) : Response * Store :=
  match payload with
  | JArr rows =>
      match parse_rows rows [] with
      | inl KeyError => (Reply 400 (BError (ErrBadFormat KeyError)), st)
      | inl ValueError => (Reply 400 (BError (ErrBadFormat ValueError)), st)
      | inl e => (Unhandled e, st)
      | inr participants =>
          let st1 := save_participants participants st in
          let st2 := save_matches [] st1 in
          (Reply 200 (BUploaded (length participants)), st2)
      end
  | _ => (Reply 400 (BError ErrNotAList), st)
  end.

(** Lines 174-177: the seed of a match request; [body] is [None] when the
    request carries no JSON the framework can parse. *)
Definition request_seed (body : option json) : exn + option Z :=
  let body :=
    match body with
    | Some b => if truthy b then b else JObj []
    | None => JObj []
    end in
  match dict_get body "seed" with
  | inl e => inl e
  | inr None => inr None
  | inr (Some seed) =>
      match py_int seed with
      | inl e => inl e
      | inr z => inr (Some z)
      end
  end.

(** POST /api/admin/match *)
Definition admin_match (body : option json) (st : Store) (g : Rng)
  : Response * Store * Rng :=
  match request_seed body with
  | inl ValueError => (Reply 400 (BError ErrSeedNotNumber), st, g)
  | inl e => (Unhandled e, st, g)
  | inr seed_val =>
      let participants := load_participants st in
      match participants with
      | [] => (Reply 400 (BError ErrNoParticipants), st, g)
      | _ =>
          match make_matches participants seed_val g with
          | (inl e, g') => (Reply 400 (BError (ErrMatching e)), st, g')
          | (inr matches, g') =>
              (Reply 200 (BMatched (length matches)),
               save_matches matches st, g')
          end
      end
  end.

(** GET /api/admin/results *)
Definition admin_results (st : Store) : Response :=
  Reply 200 (BResults (load_matches st)).

(** [not v] for the result of [body.get] *)
Definition falsy (v : option json) : bool :=
  match v with
  | Some v => negb (truthy v)
  | None => true
  end.

(** POST /api/lookup *)
Definition lookup (body : json) (st : Store) : Response :=
  match dict_get body "name" with
  | inl e => Unhandled e
  | inr name_v =>
  match dict_get body "birthdate" with
  | inl e => Unhandled e
  | inr birthdate_v =>
  match name_v, birthdate_v with
  | Some name_j, Some birthdate_j =>
      if falsy name_v || falsy birthdate_v
      then Reply 400 (BError ErrFieldsRequired)
      else
        match name_j with
        | JStr name_s =>
            let name_norm := normalize_name name_s in
            let birthdate_norm := normalize_birthdate (py_str birthdate_j) in
            let participants := load_participants st in
            match list_find (λ p, normalize_name (name p) = name_norm)
                            participants with
            | None => Reply 404 (BError ErrNameNotInRoster)
            | Some (_, participant) =>
                if decide (birthdate participant ≠ birthdate_norm)
                then Reply 403 (BError ErrBirthdateMismatch)
                else
                  let matches := load_matches st in
                  match matches with
                  | [] => Reply 400 (BError ErrNotMatchedYet)
                  | _ =>
                      match list_find
                              (λ m, normalize_name (manitto_name m) = name_norm)
                              matches with
                      | Some (_, m) =>
                          Reply 200
                            (BLookup (manitto_name m) (match_table m)
                                     (manitti_name m) (manitti_email m)
                                     (GiftGuide (manitti_name m)))
                      | None => Reply 404 (BError ErrNoMatchEntry)
                      end
                  end
            end
        | _ => Unhandled AttributeError
        end
  | _, _ => Reply 400 (BError ErrFieldsRequired)
  end end end.

(** ** Requests

    The routes of lines 146, 172, 194 and 200; the store and the generator
    of the process pass from one request to the next. *)

Inductive Request :=
  | PostUpload (payload : json)
  | PostMatch (body : option json)
  | GetResults
  | PostLookup (body : json).

Definition handle (req : Request) (st : Store) (g : Rng)
  : Response * Store * Rng :=
  match req with
  | PostUpload payload =>
      let '(r, st') := admin_upload payload st in (r, st', g)
  | PostMatch body => admin_match body st g
  | GetResults => (admin_results st, st, g)
  | PostLookup body => (lookup body st, st, g)
  end.

(** The store and generator after serving the requests in turn. *)
Fixpoint serve (reqs : list Request) (st : Store) (g : Rng) : Store * Rng :=
  match reqs with
  | [] => (st, g)
  | req :: rest =>
      let '(_, st', g') := handle req st g in serve rest st' g'
  end.

(** What the requests were answered, in turn. *)
Fixpoint replies (reqs : list Request) (st : Store) (g : Rng)
  : list Response :=
  match reqs with
  | [] => []
  | req :: rest =>
      let '(r, st', g') := handle req st g in r :: replies rest st' g'
  end.

Definition is_match_request (req : Request) : bool :=
  match req with
  | PostMatch _ => true
  | _ => false
  end.

(** The stored matches belong to the stored participants: there are none,
    or they are what [make_matches] returned for the participants as they
    are loaded now. *)
Definition consistent (st : Store) : Prop :=
  matches_doc st = []
  ∨ ∃ seed g g',
      make_matches (load_participants st) seed g = (inr (matches_doc st), g').

(** The store of a fresh installation: neither document exists. *)
Definition empty_store : Store :=
  {| participants_doc := []; matches_doc := [] |}.

(** ** The engine over list objects

    Python lists are mutable objects: [group_by_table] appends to the lists
    it creates, [members.copy()] creates one more and [random.shuffle]
    permutes it in place.  Here a heap maps the address of a list object to
    its contents, and a dictionary maps a table to the address of its member
    list; what the call writes is then visible. *)

Definition alloc (v : list Participant) (h : gmap nat (list Participant))
  : nat * gmap nat (list Participant) :=
  let l := fresh (dom h) in (l, <[l:=v]> h).

Fixpoint dict_find (grouped : list (Z * nat)) (k : Z) : option nat :=
  match grouped with
  | [] => None
  | (k', l) :: rest => if decide (k' = k) then Some l else dict_find rest k
  end.

(** [grouped.setdefault(k, []).append(p)] *)
Definition setdefault_append_obj (grouped : list (Z * nat)) (k : Z)
    (p : Participant) (h : gmap nat (list Participant))
  : list (Z * nat) * gmap nat (list Participant) :=
  match dict_find grouped k with
  | Some l => (grouped, alter (λ v, v ++ [p]) l h)
  | None =>
      let '(l, h') := alloc [] h in
      (grouped ++ [(k, l)], alter (λ v, v ++ [p]) l h')
  end.

(** [None] stands for reading an address that holds no list. *)
Definition group_by_table_obj (participants : nat)
    (h : gmap nat (list Participant))
  : option (list (Z * nat) * gmap nat (list Participant)) :=
  ps ← h !! participants;
  Some (foldl (λ st p, setdefault_append_obj st.1 (table p) p st.2) ([], h) ps).

Fixpoint match_groups_obj (groups : list (Z * nat)) (results : list Match)
    (h : gmap nat (list Participant)) (g : Rng)
  : option ((MatchError + list Match) * gmap nat (list Participant) * Rng) :=
  match groups with
  | [] => Some (inr results, h, g)
  | (table_no, members) :: rest =>
      ms ← h !! members;
      if decide (length ms < 2)
      then Some (inl (TableTooSmall table_no), h, g)
      else
        let '(shuffled, h1) := alloc ms h in
        x ← h1 !! shuffled;
        let '(x', g') := shuffle x g in
        let h2 := <[shuffled:=x']> h1 in
        sh ← h2 !! shuffled;
        match_groups_obj rest
          (results ++ (pair_match table_no <$> make_pairs sh)) h2 g'
  end.

Definition make_matches_obj (participants : nat) (seed : option Z)
    (h : gmap nat (list Participant)) (g : Rng)
  : option ((MatchError + list Match) * gmap nat (list Participant) * Rng) :=
  let g0 := match seed with Some s => seed_rng s | None => g end in
  '(grouped, h1) ← group_by_table_obj participants h;
  match_groups_obj grouped [] h1 g0.

(** The dictionary of lists a dictionary of addresses stands for. *)
Definition reify (h : gmap nat (list Participant)) (d : list (Z * nat))
  : list (Z * list Participant) :=
  (λ e, (e.1, default [] (h !! e.2))) <$> d.

(** [h] extends [h0]: what [h0] holds is still there, unchanged. *)
Definition frame (h0 h : gmap nat (list Participant)) : Prop :=
  ∀ l, is_Some (h0 !! l) → h !! l = h0 !! l.

(** The addresses of [d] are distinct, allocated, and new since [h0]. *)
Definition owned (h0 h : gmap nat (list Participant)) (d : list (Z * nat))
  : Prop :=
  NoDup d.*2 ∧ Forall (λ e, is_Some (h !! e.2) ∧ h0 !! e.2 = None) d.

(** * Properties *)

(** ** The shuffle permutes *)

Lemma swap_length {A} i j (x : list A) : length (swap i j x) = length x.
Proof.
  unfold swap. destruct (x !! i), (x !! j); trivial.
  by rewrite !length_insert.
Qed.

Lemma swap_lookup {A} i j (x : list A) k :
  i < length x → j < length x →
  swap i j x !! k =
    x !! (if decide (k = i) then j else if decide (k = j) then i else k).
Proof.
  intros Hi Hj. unfold swap.
  destruct (lookup_lt_is_Some_2 x i Hi) as [xi Hxi].
  destruct (lookup_lt_is_Some_2 x j Hj) as [xj Hxj].
  rewrite Hxi, Hxj, !list_lookup_insert, !length_insert.
  repeat case_decide; try done; try lia; destruct_and?; simplify_eq; try done;
    exfalso; intuition lia.
Qed.

Lemma swap_Permutation {A} i j (x : list A) : swap i j x ≡ₚ x.
Proof.
  destruct (decide (i < length x ∧ j < length x)) as [[Hi Hj]|Hout].
  - apply Permutation_inj. split; [apply swap_length|].
    exists (λ k, if decide (k = i) then j else if decide (k = j) then i else k).
    split; [|intros k; by apply swap_lookup].
    intros a b. repeat case_decide; lia.
  - unfold swap.
    destruct (x !! i) eqn:Hxi; [|done].
    destruct (x !! j) eqn:Hxj; [|done].
    apply lookup_lt_Some in Hxi, Hxj. lia.
Qed.

Lemma swap_fmap {A B} (f : A → B) i j (x : list A) :
  swap i j (f <$> x) = f <$> swap i j x.
Proof.
  unfold swap. rewrite !list_lookup_fmap.
  destruct (x !! i), (x !! j); simpl; trivial.
  by rewrite !list_fmap_insert.
Qed.

Lemma shuffle_loop_Permutation {A} i (x : list A) g :
  (shuffle_loop i x g).1 ≡ₚ x.
Proof.
  revert x g. induction i as [|i IH]; intros x g; [done|].
  cbn [shuffle_loop]. destruct (randbelow (S i + 1) g) as [j g'].
  rewrite IH. apply swap_Permutation.
Qed.

Lemma shuffle_loop_fmap {A B} (f : A → B) i (x : list A) g :
  shuffle_loop i (f <$> x) g
  = (f <$> (shuffle_loop i x g).1, (shuffle_loop i x g).2).
Proof.
  revert x g. induction i as [|i IH]; intros x g; [done|].
  cbn [shuffle_loop]. destruct (randbelow (S i + 1) g) as [j g'].
  by rewrite swap_fmap, IH.
Qed.

Lemma shuffle_Permutation {A} (x : list A) g : (shuffle x g).1 ≡ₚ x.
Proof. apply shuffle_loop_Permutation. Qed.

Lemma shuffle_fmap {A B} (f : A → B) (x : list A) g :
  shuffle (f <$> x) g = (f <$> (shuffle x g).1, (shuffle x g).2).
Proof. unfold shuffle. rewrite length_fmap. apply shuffle_loop_fmap. Qed.

(** With a generator that keeps the contract of [randbelow], a number below
    its argument, no swap of the shuffle leaves the list: the shuffle with
    bounds checks never fails and agrees with [shuffle]. *)
Section Contract.

Hypothesis randbelow_lt : ∀ n g, 0 < n → (randbelow n g).1 < n.

Lemma swap_checked_in_range {A} i j (x : list A) :
  i < length x → j < length x → swap_checked i j x = Some (swap i j x).
Proof.
  intros Hi Hj. unfold swap_checked, swap.
  destruct (lookup_lt_is_Some_2 x i Hi) as [xi ->].
  by destruct (lookup_lt_is_Some_2 x j Hj) as [xj ->].
Qed.

Lemma shuffle_loop_checked_ok {A} i (x : list A) g :
  i < length x ∨ i = 0 →
  shuffle_loop_checked i x g = Some (shuffle_loop i x g).
Proof.
  revert x g. induction i as [|i IH]; intros x g Hi; [done|].
  cbn [shuffle_loop_checked shuffle_loop].
  pose proof (randbelow_lt (S i + 1) g ltac:(lia)) as Hj.
  destruct (randbelow (S i + 1) g) as [j g']. cbn in Hj.
  rewrite swap_checked_in_range by lia. cbn.
  apply IH. rewrite swap_length. lia.
Qed.

Lemma shuffle_checked_ok {A} (x : list A) g :
  shuffle_checked x g = Some (shuffle x g).
Proof.
  apply shuffle_loop_checked_ok. destruct x; cbn; lia.
Qed.

End Contract.

(** ** The pairs of one table form the cycle of the shuffled order *)

Lemma make_pairs_cycle {A} (shuffled : list A) :
  make_pairs shuffled
  = imap (λ idx manitto,
            (manitto,
             default manitto (shuffled !! next_pos (length shuffled) idx)))
         shuffled.
Proof. by destruct shuffled as [|s0 [|s1 [|s2 rest]]]. Qed.

Lemma next_pos_lt n i : 0 < n → next_pos n i < n.
Proof. intros. unfold next_pos. apply Nat.mod_upper_bound. lia. Qed.

Lemma next_pos_ne n i : 2 ≤ n → i < n → next_pos n i ≠ i.
Proof.
  intros Hn Hi. unfold next_pos.
  destruct (decide (i + 1 < n)) as [Hlt|Hge].
  - rewrite Nat.mod_small by done. lia.
  - replace (i + 1) with n by lia. rewrite Nat.Div0.mod_same. lia.
Qed.



Lemma make_pairs_lookup_inv {A} (shuffled : list A) i a b :
  make_pairs shuffled !! i = Some (a, b) →
  shuffled !! i = Some a ∧ shuffled !! next_pos (length shuffled) i = Some b.
Proof.
  rewrite make_pairs_cycle, list_lookup_imap.
  destruct (shuffled !! i) as [a'|] eqn:Ha; simpl; [|done].
  assert (Hlt : next_pos (length shuffled) i < length shuffled).
  { apply next_pos_lt. apply lookup_lt_Some in Ha. lia. }
  destruct (lookup_lt_is_Some_2 _ _ Hlt) as [b' Hb]. rewrite Hb. simpl.
  by intros [= -> ->].
Qed.

Lemma make_pairs_fst {A} (shuffled : list A) :
  (make_pairs shuffled).*1 = shuffled.
Proof.
  rewrite make_pairs_cycle. apply list_eq. intros i.
  rewrite list_lookup_fmap, list_lookup_imap.
  by destruct (shuffled !! i).
Qed.

Lemma rotate_Permutation {A} n (l : list A) : rotate n l ≡ₚ l.
Proof.
  unfold rotate. rewrite Permutation_app_comm. by rewrite take_drop.
Qed.

Lemma make_pairs_snd {A} (shuffled : list A) :
  (make_pairs shuffled).*2 = rotate 1 shuffled.
Proof.
  rewrite make_pairs_cycle. apply list_eq. intros i.
  rewrite list_lookup_fmap, list_lookup_imap.
  destruct (shuffled !! i) as [a|] eqn:Ha; simpl.
  - pose proof (lookup_lt_Some _ _ _ Ha) as Hi.
    rewrite lookup_rotate_r by done.
    assert (Hpos : rotate_nat_add 1 i (length shuffled)
                   = next_pos (length shuffled) i).
    { unfold rotate_nat_add, next_pos.
      rewrite <- Nat2Z.inj_add with (n := 1), <- Nat2Z.inj_mod, Nat2Z.id.
      by rewrite Nat.add_comm. }
    rewrite Hpos.
    destruct (lookup_lt_is_Some_2 shuffled (next_pos (length shuffled) i))
      as [b Hb]; [apply next_pos_lt; lia|].
    by rewrite Hb.
  - symmetry. apply lookup_ge_None. rewrite length_rotate.
    by apply lookup_ge_None.
Qed.

Lemma make_pairs_fmap {A B} (f : A → B) (shuffled : list A) :
  make_pairs (f <$> shuffled) = prod_map f f <$> make_pairs shuffled.
Proof.
  rewrite !make_pairs_cycle, fmap_imap, imap_fmap, length_fmap.
  apply imap_ext. intros i a Ha. simpl. unfold prod_map. simpl. f_equal.
  rewrite list_lookup_fmap.
  by destruct (shuffled !! next_pos (length shuffled) i).
Qed.

Lemma make_pairs_distinct {A} (shuffled : list A) a b :
  NoDup shuffled → 2 ≤ length shuffled →
  (a, b) ∈ make_pairs shuffled → a ≠ b.
Proof.
  intros Hnd Hlen [i Hi]%list_elem_of_lookup.
  apply make_pairs_lookup_inv in Hi as [Ha Hb]. intros <-.
  pose proof (lookup_lt_Some _ _ _ Ha) as Hlt.
  apply (next_pos_ne (length shuffled) i); [done..|].
  by apply (NoDup_lookup shuffled _ _ a).
Qed.

(** ** Grouping *)

Lemma setdefault_append_fmap {A B} (f : A → B)
    (grouped : list (Z * list A)) k x :
  setdefault_append (relabel f <$> grouped) k (f x)
  = relabel f <$> setdefault_append grouped k x.
Proof.
  induction grouped as [|[k' v] rest IH]; [done|].
  cbn. case_decide; cbn.
  - unfold relabel. cbn. by rewrite fmap_app.
  - by rewrite IH.
Qed.

Lemma group_by_fmap {A B} (f : A → B) (keyA : A → Z) (keyB : B → Z) l :
  (∀ x, keyB (f x) = keyA x) →
  group_by keyB (f <$> l) = relabel f <$> group_by keyA l.
Proof.
  intros Hkey. unfold group_by.
  change (@nil (Z * list B)) with (relabel f <$> @nil (Z * list A)).
  generalize (@nil (Z * list A)) as grouped.
  induction l as [|x l IH]; intros grouped; [done|].
  cbn [fmap list_fmap foldl]. rewrite Hkey, setdefault_append_fmap. apply IH.
Qed.

Lemma setdefault_append_concat {A} (grouped : list (Z * list A)) k x :
  concat (setdefault_append grouped k x).*2 ≡ₚ concat grouped.*2 ++ [x].
Proof.
  induction grouped as [|[k' v] rest IH]; [done|].
  cbn. case_decide; cbn.
  - rewrite <- !(assoc_L (++)). f_equiv. apply Permutation_app_comm.
  - rewrite IH. by rewrite (assoc_L (++)).
Qed.

Lemma group_by_Permutation {A} (key : A → Z) l :
  concat (group_by key l).*2 ≡ₚ l.
Proof.
  unfold group_by.
  assert (Hgen : ∀ grouped : list (Z * list A),
    concat (foldl (λ grouped x, setdefault_append grouped (key x) x)
                  grouped l).*2 ≡ₚ concat grouped.*2 ++ l).
  { induction l as [|x l IH]; intros grouped; cbn [foldl].
    - by rewrite (right_id_L [] (++)).
    - rewrite IH, setdefault_append_concat, <- (assoc_L (++)). done. }
  apply Hgen.
Qed.

Lemma setdefault_append_keyed {A} (key : A → Z) grouped x :
  keyed key grouped → keyed key (setdefault_append grouped (key x) x).
Proof.
  unfold keyed. induction 1 as [|[k' v] rest [Hne Hk] Hrest IH]; cbn.
  - repeat constructor; done.
  - case_decide; constructor; cbn in *; try done.
    split; [by destruct v|]. apply Forall_app. split; [done|].
    by repeat constructor.
Qed.

Lemma group_by_keyed {A} (key : A → Z) l : keyed key (group_by key l).
Proof.
  unfold group_by.
  assert (Hgen : ∀ grouped, keyed key grouped →
    keyed key (foldl (λ grouped x, setdefault_append grouped (key x) x)
                     grouped l)).
  { induction l as [|x l IH]; intros grouped Hk; cbn [foldl]; [done|].
    by apply IH, setdefault_append_keyed. }
  apply Hgen. constructor.
Qed.

Lemma filter_none {A} (P : A → Prop) `{∀ x, Decision (P x)} (l : list A) :
  (∀ x, x ∈ l → ¬ P x) → filter P l = [].
Proof.
  induction l as [|x l IH]; intros Hno; [done|].
  rewrite filter_cons, decide_False.
  - apply IH. intros y Hy. apply Hno. by apply list_elem_of_further.
  - apply Hno, list_elem_of_here.
Qed.

(** The groups are the tables: every table that occurs has one group, and
    a group holds the participants of its table in the order of the list. *)
Lemma setdefault_append_filter {A} (key : A → Z) l grouped x :
  NoDup grouped.*1 →
  Forall (λ gr, gr.2 = filter (λ y, key y = gr.1) l) grouped →
  (key x ∈ grouped.*1 ∨ filter (λ y, key y = key x) l = []) →
  NoDup (setdefault_append grouped (key x) x).*1
  ∧ Forall (λ gr, gr.2 = filter (λ y, key y = gr.1) (l ++ [x]))
           (setdefault_append grouped (key x) x)
  ∧ ∀ k, k ∈ (setdefault_append grouped (key x) x).*1
         ↔ k ∈ grouped.*1 ∨ k = key x.
Proof.
  induction grouped as [|[k' v] rest IH]; intros Hnd Hall Hseen.
  - cbn. split; [apply NoDup_singleton|]. split.
    + repeat constructor. cbn. rewrite filter_app.
      destruct Hseen as [Hin | ->]; [by apply elem_of_nil in Hin|].
      cbn. by rewrite decide_True.
    + intros k. rewrite list_elem_of_singleton, elem_of_nil. tauto.
  - cbn in Hnd. apply NoDup_cons in Hnd as [Hnotin Hnd].
    apply Forall_cons in Hall as [Hv Hall]. cbn in Hv.
    cbn [setdefault_append]. case_decide as Hk.
    + subst k'. cbn. split; [by apply NoDup_cons|]. split.
      * constructor; cbn.
        -- rewrite filter_app, Hv. cbn. by rewrite decide_True.
        -- apply Forall_forall. intros gr Hgr.
           rewrite (proj1 (Forall_forall _ _) Hall gr Hgr), filter_app. cbn.
           rewrite decide_False; [by rewrite (right_id_L [] (++))|].
           intros Heq. apply Hnotin. rewrite Heq.
           by apply list_elem_of_fmap_2.
      * intros k. rewrite elem_of_cons. intuition.
    + destruct (IH Hnd Hall) as (Hnd' & Hall' & Hkeys).
      { destruct Hseen as [Hin|Hnone]; [|by right].
        cbn in Hin. apply elem_of_cons in Hin as [Heq|Hin]; [|by left].
        by destruct Hk. }
      cbn. split; [|split].
      * apply NoDup_cons. split; [|done]. rewrite Hkeys.
        intros [Hin|Heq]; [by apply Hnotin|by apply Hk].
      * constructor; [|done]. cbn. rewrite filter_app, Hv. cbn.
        rewrite decide_False by (intros Heq; by apply Hk).
        by rewrite (right_id_L [] (++)).
      * intros k. rewrite !elem_of_cons, Hkeys. tauto.
Qed.

Lemma group_by_filter {A} (key : A → Z) l :
  NoDup (group_by key l).*1
  ∧ Forall (λ gr, gr.2 = filter (λ y, key y = gr.1) l) (group_by key l)
  ∧ ∀ k, k ∈ (group_by key l).*1 ↔ ∃ x, x ∈ l ∧ key x = k.
Proof.
  unfold group_by.
  assert (Hgen : ∀ l0 grouped,
    NoDup grouped.*1 →
    Forall (λ gr, gr.2 = filter (λ y, key y = gr.1) l0) grouped →
    (∀ k, k ∈ grouped.*1 ↔ ∃ x, x ∈ l0 ∧ key x = k) →
    let res := foldl (λ grouped x, setdefault_append grouped (key x) x)
                     grouped l in
    NoDup res.*1
    ∧ Forall (λ gr, gr.2 = filter (λ y, key y = gr.1) (l0 ++ l)) res
    ∧ ∀ k, k ∈ res.*1 ↔ ∃ x, x ∈ l0 ++ l ∧ key x = k).
  { induction l as [|x l IH]; intros l0 grouped Hnd Hall Hkeys.
    - cbn. by rewrite (right_id_L [] (++)).
    - cbn [foldl].
      destruct (setdefault_append_filter key l0 grouped x Hnd Hall)
        as (Hnd' & Hall' & Hkeys').
      { destruct (decide (key x ∈ grouped.*1)) as [?|Hno]; [by left|right].
        apply filter_none. intros y Hy Hkey. apply Hno, Hkeys. by exists y. }
      replace (l0 ++ x :: l) with ((l0 ++ [x]) ++ l)
        by (by rewrite <- (assoc_L (++))).
      apply IH; [done..|].
      intros k. rewrite Hkeys', Hkeys. split.
      + intros [(y & Hy & <-) | ->].
        * exists y. split; [|done]. apply elem_of_app. by left.
        * exists x. split; [|done]. apply elem_of_app. right.
          by apply list_elem_of_singleton.
      + intros (y & [Hy|Hy%list_elem_of_singleton]%elem_of_app & <-).
        * left. by exists y.
        * right. by subst. }
  apply (Hgen [] []); [apply NoDup_nil_2|constructor|].
  intros k. cbn. split; [by intros ?%elem_of_nil|].
  by intros (x & ?%elem_of_nil & _).
Qed.

Lemma group_by_table_tables ps :
  NoDup (group_by_table ps).*1
  ∧ Forall (λ gr, gr.2 = filter (λ p, table p = gr.1) ps) (group_by_table ps)
  ∧ ∀ t, t ∈ (group_by_table ps).*1 ↔ ∃ p, p ∈ ps ∧ table p = t.
Proof. apply (group_by_filter table ps). Qed.

(** ** The loop over the tables *)

Lemma match_groups_blocks {A} (f : A → Participant)
    (groups : list (Z * list A)) results g :
  Forall (λ gr, 2 ≤ length gr.2) groups →
  ∃ shuffles g',
    match_groups (relabel f <$> groups) results g
    = (inr (results ++ concat (matches_of f <$> shuffles)), g')
    ∧ Forall2 (λ gr sh, sh.1 = gr.1 ∧ sh.2 ≡ₚ gr.2) groups shuffles.
Proof.
  intros Hall. revert results g.
  induction Hall as [|[t ms] rest Hlen _ IH]; intros results g.
  - exists [], g. cbn. by rewrite (right_id_L [] (++)).
  - cbn [snd] in Hlen.
    destruct (IH (results ++
                   (pair_match t <$> make_pairs (f <$> (shuffle ms g).1)))
                 (shuffle ms g).2) as (shuffles & g' & Hrun & Hrel).
    exists ((t, (shuffle ms g).1) :: shuffles), g'. split.
    + cbn [fmap list_fmap match_groups].
      change (relabel f (t, ms)) with (t, f <$> ms). cbv beta iota.
      rewrite decide_False by (rewrite length_fmap; lia).
      rewrite shuffle_fmap, Hrun. cbn. unfold matches_of at 2. cbn.
      by rewrite (assoc_L (++)).
    + constructor; [|done]. split; [done|]. apply shuffle_Permutation.
Qed.

(** ** Positions *)

Lemma tagged_snd ps : (tagged ps).*2 = ps.
Proof.
  unfold tagged. rewrite fmap_imap. apply list_eq. intros i.
  rewrite list_lookup_imap. by destruct (ps !! i).
Qed.

Lemma tagged_fst ps : (tagged ps).*1 = seq 0 (length ps).
Proof.
  unfold tagged. rewrite fmap_imap. apply list_eq. intros i.
  rewrite list_lookup_imap.
  destruct (ps !! i) as [p|] eqn:Hp; simpl.
  - symmetry. apply lookup_seq. split; [done|]. by apply lookup_lt_Some in Hp.
  - symmetry. apply lookup_seq_ge. by apply lookup_ge_None.
Qed.

Lemma elem_of_tagged ps x : x ∈ tagged ps ↔ ps !! x.1 = Some x.2.
Proof.
  unfold tagged. rewrite elem_of_lookup_imap. split.
  - by intros (i & p & -> & Hp).
  - destruct x as [i p]. intros Hp. by exists i, p.
Qed.

Lemma NoDup_tagged ps : NoDup (tagged ps).
Proof.
  apply (NoDup_fmap_1 fst). rewrite tagged_fst. apply NoDup_seq.
Qed.

Lemma concat_Permutation_Forall2 {A} (groups shuffles : list (Z * list A)) :
  Forall2 (λ gr sh, sh.1 = gr.1 ∧ sh.2 ≡ₚ gr.2) groups shuffles →
  concat shuffles.*2 ≡ₚ concat groups.*2.
Proof.
  induction 1 as [|gr sh groups shuffles [_ Hp] _ IH]; [done|].
  cbn. by rewrite Hp, IH.
Qed.

Lemma NoDup_concat_elem {A} (ls : list (list A)) l :
  NoDup (concat ls) → l ∈ ls → NoDup l.
Proof.
  induction ls as [|l' ls IH]; cbn; [by intros _ ?%elem_of_nil|].
  intros (Hl' & _ & Hls)%NoDup_app [->|Hin]%elem_of_cons; auto.
Qed.

Lemma elem_of_concat_elem {A} (ls : list (list A)) l x :
  l ∈ ls → x ∈ l → x ∈ concat ls.
Proof.
  induction ls as [|l' ls IH]; cbn; [by intros ?%elem_of_nil|].
  intros [->|Hin]%elem_of_cons Hx; apply elem_of_app; auto.
Qed.

Lemma shuffles_good {A} (key : A → Z) (l : list A) shuffles :
  NoDup l →
  Forall (λ gr : Z * list A, 2 ≤ length gr.2) (group_by key l) →
  Forall2 (λ gr sh, sh.1 = gr.1 ∧ sh.2 ≡ₚ gr.2) (group_by key l) shuffles →
  Forall (good_block key l) shuffles.
Proof.
  intros Hnd Hlen Hrel.
  pose proof (group_by_keyed key l) as Hkeyed.
  pose proof (group_by_Permutation key l) as Hperm.
  apply Forall_lookup. intros i sh Hsh.
  destruct (Forall2_lookup_r _ _ _ _ _ Hrel Hsh) as (gr & Hgr & Ht & Hp).
  pose proof (Forall_lookup_1 _ _ _ _ Hlen Hgr) as Hlen_gr.
  pose proof (Forall_lookup_1 _ _ _ _ Hkeyed Hgr) as [_ Hkey_gr].
  assert (Hin : gr.2 ∈ (group_by key l).*2).
  { apply list_elem_of_fmap. exists gr. split; [done|].
    by apply list_elem_of_lookup_2 in Hgr. }
  repeat split.
  - by rewrite Hp.
  - rewrite Hp. apply (NoDup_concat_elem _ _ ltac:(by rewrite Hperm) Hin).
  - rewrite Hp, Ht. apply Forall_forall. intros x Hx. split.
    + by apply (proj1 (Forall_forall _ _) Hkey_gr).
    + rewrite <- Hperm. by apply (elem_of_concat_elem _ gr.2).
Qed.

Lemma good_block_matches l (sh : Z * list (nat * Participant)) :
  good_block (table ∘ snd) l sh →
  matches_of snd sh = link_match <$> make_pairs sh.2.
Proof.
  intros (_ & _ & Hkey). unfold matches_of.
  rewrite make_pairs_fmap, <- list_fmap_compose.
  apply list_fmap_ext. intros i [x y] Hxy. cbn. unfold link_match. cbn.
  apply make_pairs_lookup_inv in Hxy as [Hx _].
  apply list_elem_of_lookup_2 in Hx.
  destruct (proj1 (Forall_forall _ _) Hkey x Hx) as [Ht _]. cbn in Ht.
  by rewrite Ht.
Qed.

Lemma good_block_links l (sh : Z * list (nat * Participant)) :
  NoDup l.*1 → good_block (table ∘ snd) l sh →
  Forall (λ lk, lk.1.1 ≠ lk.2.1 ∧ table lk.1.2 = table lk.2.2)
         (make_pairs sh.2).
Proof.
  intros Hnd (Hlen & Hndsh & Hkey). apply Forall_forall. intros [x y] Hxy.
  pose proof (make_pairs_distinct _ _ _ Hndsh Hlen Hxy) as Hne.
  apply list_elem_of_lookup in Hxy as [i Hi].
  apply make_pairs_lookup_inv in Hi as [Hx Hy].
  apply list_elem_of_lookup_2 in Hx, Hy.
  destruct (proj1 (Forall_forall _ _) Hkey x Hx) as [Htx Hlx].
  destruct (proj1 (Forall_forall _ _) Hkey y Hy) as [Hty Hly].
  cbn in *. split; [|congruence].
  intros Heq. apply Hne.
  apply list_elem_of_lookup in Hlx as [ix Hix], Hly as [iy Hiy].
  assert (ix = iy) as ->.
  { apply (NoDup_lookup l.*1 ix iy x.1); [done|..];
      rewrite list_lookup_fmap; [by rewrite Hix|by rewrite Hiy, Heq]. }
  congruence.
Qed.

Lemma make_matches_links ps seed g :
  Forall (λ gr : Z * list Participant, 2 ≤ length gr.2) (group_by_table ps) →
  ∃ links g',
    make_matches ps seed g = (inr (link_match <$> links), g')
    ∧ links.*1 ≡ₚ tagged ps
    ∧ links.*2 ≡ₚ tagged ps
    ∧ Forall (λ lk, lk.1.1 ≠ lk.2.1 ∧ table lk.1.2 = table lk.2.2) links.
Proof.
  intros Hsize.
  set (l := tagged ps). set (key := table ∘ snd : nat * Participant → Z).
  assert (Hgroups : group_by_table ps = relabel snd <$> group_by key l).
  { unfold group_by_table. fold (group_by table ps).
    rewrite <- (tagged_snd ps) at 1. by apply group_by_fmap. }
  assert (Hlen : Forall (λ gr : Z * list (nat * Participant), 2 ≤ length gr.2)
                        (group_by key l)).
  { apply Forall_forall. intros [t ms] Hin. cbn.
    rewrite <- (length_fmap snd).
    apply (proj1 (Forall_forall _ _) Hsize (relabel snd (t, ms))).
    rewrite Hgroups. apply list_elem_of_fmap. by exists (t, ms). }
  unfold make_matches. rewrite Hgroups.
  destruct (match_groups_blocks snd (group_by key l) []
              (match seed with Some s => seed_rng s | None => g end) Hlen)
    as (shuffles & g' & Hrun & Hrel).
  pose proof (shuffles_good key l shuffles (NoDup_tagged ps) Hlen Hrel)
    as Hgood.
  pose proof (concat_Permutation_Forall2 _ _ Hrel) as Hperm.
  rewrite (group_by_Permutation key l) in Hperm.
  assert (Hndfst : NoDup l.*1).
  { unfold l. rewrite tagged_fst. apply NoDup_seq. }
  exists (concat ((λ sh, make_pairs sh.2) <$> shuffles)), g'.
  rewrite Hrun. clear Hrun Hrel Hlen Hgroups Hsize.
  cbn [app]. rewrite <- Hperm. clear Hperm.
  induction Hgood as [|sh shuffles Hsh _ IH]; [by repeat split|].
  destruct IH as (IH1 & IH2 & IH3 & IH4).
  cbn [fmap list_fmap concat]. rewrite !fmap_app.
  rewrite (good_block_matches l sh Hsh).
  injection IH1 as IH1. rewrite IH1.
  rewrite make_pairs_fst, make_pairs_snd, rotate_Permutation, IH2, IH3.
  repeat split; try done.
  apply Forall_app. split; [|done]. by apply (good_block_links l).
Qed.

Lemma links_gives ps (links : list ((nat * Participant) * (nat * Participant))) :
  links.*1 ≡ₚ tagged ps → links.*2 ≡ₚ tagged ps →
  Forall (λ lk, lk.1.1 ≠ lk.2.1 ∧ table lk.1.2 = table lk.2.2) links →
  Forall2 (λ m lk, gives ps lk.1 lk.2 m ∧ lk.1 ≠ lk.2)
          (link_match <$> links) (link_pos <$> links).
Proof.
  intros H1 H2 Hall. apply Forall2_fmap, Forall_Forall2_diag, Forall_forall.
  intros [x y] Hin.
  destruct (proj1 (Forall_forall _ _) Hall _ Hin) as [Hne _]. cbn in *.
  split; [|done]. exists x.2, y.2. repeat split.
  - apply elem_of_tagged. rewrite <- H1.
    apply list_elem_of_fmap. by exists (x, y).
  - apply elem_of_tagged. rewrite <- H2.
    apply list_elem_of_fmap. by exists (x, y).
Qed.

Lemma links_manitto (links : list ((nat * Participant) * (nat * Participant))) :
  manitto <$> (link_match <$> links) = person <$> links.*1.*2.
Proof. rewrite <- !list_fmap_compose. by apply list_fmap_ext. Qed.

Lemma links_manitti (links : list ((nat * Participant) * (nat * Participant))) :
  Forall (λ lk, lk.1.1 ≠ lk.2.1 ∧ table lk.1.2 = table lk.2.2) links →
  manitti <$> (link_match <$> links) = person <$> links.*2.*2.
Proof.
  intros Hall. rewrite <- !list_fmap_compose.
  apply list_fmap_ext. intros i lk Hlk.
  destruct (Forall_lookup_1 _ _ _ _ Hall Hlk) as [_ Ht].
  cbn. unfold manitti, person. cbn. by rewrite Ht.
Qed.

(** C1, amended.  When every table has at least two members,
    [make_matches] succeeds and its matches correspond one to one to links
    between positions of the participant list: every position is the giver
    of exactly one link, so the givers shown by the matches are the
    participants, each as often as listed, and no link leads from a position
    to itself.  When no two participants of one table share both name and
    address, no match shows the same name and address as giver and as
    receiver. *)
Theorem make_matches_one_outgoing_no_self ps seed g :
  Forall (λ gr : Z * list Participant, 2 ≤ length gr.2) (group_by_table ps) →
  ∃ res g' (links : list (nat * nat)),
    make_matches ps seed g = (inr res, g')
    ∧ links.*1 ≡ₚ seq 0 (length ps)
    ∧ Forall2 (λ m lk, gives ps lk.1 lk.2 m ∧ lk.1 ≠ lk.2) res links
    ∧ manitto <$> res ≡ₚ person <$> ps
    ∧ (NoDup (person <$> ps) →
       Forall (λ m, (manitto_name m, manitto_email m)
                    ≠ (manitti_name m, manitti_email m)) res).
Proof.
  intros Hsize.
  destruct (make_matches_links ps seed g Hsize)
    as (links & g' & Hrun & H1 & H2 & Hall).
  pose proof (links_gives ps links H1 H2 Hall) as Hgives.
  exists (link_match <$> links), g', (link_pos <$> links).
  repeat split; try done.
  - rewrite <- tagged_fst, <- H1, <- !list_fmap_compose. done.
  - rewrite links_manitto, H1, tagged_snd. done.
  - intros Hnd. apply Forall_fmap, Forall_forall.
    intros [[i a] [j b]] Hlk.
    destruct (proj1 (Forall_forall _ _) Hall _ Hlk) as [Hne Ht].
    cbn in *. intros [= Hn He]. apply Hne.
    assert (Ha : ps !! i = Some a).
    { apply (elem_of_tagged ps (i, a)). rewrite <- H1.
      apply list_elem_of_fmap. by eexists (_, _). }
    assert (Hb : ps !! j = Some b).
    { apply (elem_of_tagged ps (j, b)). rewrite <- H2.
      apply list_elem_of_fmap. by eexists (_, _). }
    apply (NoDup_lookup _ i j (person a) Hnd);
      rewrite list_lookup_fmap; [by rewrite Ha|].
    rewrite Hb. cbn. unfold person. by rewrite Ht, Hn, He.
Qed.

(** C9.  When every table has at least two members, every position of the
    participant list is the receiver of exactly one link, so the receivers
    shown by the matches are the participants, each as often as listed. *)
Theorem make_matches_one_incoming ps seed g :
  Forall (λ gr : Z * list Participant, 2 ≤ length gr.2) (group_by_table ps) →
  ∃ res g' (links : list (nat * nat)),
    make_matches ps seed g = (inr res, g')
    ∧ links.*2 ≡ₚ seq 0 (length ps)
    ∧ Forall2 (λ m lk, gives ps lk.1 lk.2 m ∧ lk.1 ≠ lk.2) res links
    ∧ manitti <$> res ≡ₚ person <$> ps.
Proof.
  intros Hsize.
  destruct (make_matches_links ps seed g Hsize)
    as (links & g' & Hrun & H1 & H2 & Hall).
  exists (link_match <$> links), g', (link_pos <$> links).
  repeat split; try done.
  - rewrite <- tagged_fst, <- H2, <- !list_fmap_compose. done.
  - by apply links_gives.
  - rewrite links_manitti, H2, tagged_snd; done.
Qed.

(** ** The matches of one table *)













(** ** Seeds and failures *)

(** C4.  With a seed, the result of [make_matches] (matches, their order, or
    the error) does not depend on the state the generator was in; the match
    endpoint called with a seed answers and stores the same, too. *)
Theorem make_matches_seed_deterministic ps s g1 g2 :
  make_matches ps (Some s) g1 = make_matches ps (Some s) g2
  ∧ ∀ st, (admin_match (Some (JObj [("seed", JInt s)])) st g1).1
          = (admin_match (Some (JObj [("seed", JInt s)])) st g2).1.
Proof.
  split; [done|]. intros st. unfold admin_match. cbn.
  destruct (load_participants st) as [|p ps']; [done|].
  change (make_matches (p :: ps') (Some s) g1)
    with (make_matches (p :: ps') (Some s) g2).
  by destruct (make_matches (p :: ps') (Some s) g2) as [[e|ms] g'].
Qed.

Lemma match_groups_small groups results g i t ms :
  list_find (λ gr : Z * list Participant, length gr.2 < 2) groups
  = Some (i, (t, ms)) →
  ∃ g', match_groups groups results g = (inl (TableTooSmall t), g').
Proof.
  revert i results g.
  induction groups as [|[t' ms'] rest IH]; intros i results g; [done|].
  cbn [list_find match_groups]. cbn [snd].
  destruct (decide (length ms' < 2)) as [Hsmall|Hbig].
  - intros [= <- <- <-]. by exists g.
  - destruct (list_find _ rest) as [[i' gr']|] eqn:Hfind; [|done].
    cbn. intros [= <- ->].
    destruct (shuffle ms' g) as [shuffled g1]. by apply (IH i').
Qed.

(** C5.  When some table has fewer than two members, [make_matches] returns
    no matches but the error naming the first such table in dictionary
    order; the match endpoint then leaves the store as it is, does not
    answer 200, and, when the request is well formed, answers 400 with that
    error. *)
Theorem small_table_aborts ps seed g :
  Exists (λ gr : Z * list Participant, length gr.2 < 2) (group_by_table ps) →
  ∃ i t ms g',
    make_matches ps seed g = (inl (TableTooSmall t), g')
    ∧ list_find (λ gr : Z * list Participant, length gr.2 < 2)
                (group_by_table ps) = Some (i, (t, ms))
    ∧ ∀ body st g0, load_participants st = ps →
        (admin_match body st g0).1.2 = st
        ∧ status_of (admin_match body st g0).1.1 ≠ 200
        ∧ (∀ seed_val, request_seed body = inr seed_val →
             (admin_match body st g0).1.1
             = Reply 400 (BError (ErrMatching (TableTooSmall t)))).
Proof.
  intros ([t0 ms0] & Hin & Hsmall)%Exists_exists.
  destruct (list_find_elem_of (λ gr : Z * list Participant, length gr.2 < 2)
              (group_by_table ps) (t0, ms0) Hin Hsmall) as [[i [t ms]] Hfind].
  assert (Hfail : ∀ sd g1, ∃ g', make_matches ps sd g1
                                 = (inl (TableTooSmall t), g')).
  { intros sd g1. unfold make_matches. by eapply match_groups_small. }
  destruct (Hfail seed g) as [g' Hrun].
  exists i, t, ms, g'. split; [done|]. split; [done|].
  intros body st g0 Hps. unfold admin_match.
  destruct (request_seed body) as [e|seed_val].
  - destruct e; cbn; (split; [done|]; split; [lia|]; by intros ? [=]).
  - rewrite Hps. destruct ps as [|p ps']; [done|].
    destruct (Hfail seed_val g0) as [g1 ->]. cbn.
    split; [done|]. split; [lia|]. done.
Qed.

(** ** Uploads *)

Lemma parse_rows_Forall2 rows acc ps :
  parse_rows rows acc = inr ps →
  ∃ ps', ps = acc ++ ps' ∧ Forall2 (λ row p, parse_row row = inr p) rows ps'.
Proof.
  revert acc. induction rows as [|row rows IH]; intros acc; cbn.
  - intros [= <-]. exists []. by rewrite (right_id_L [] (++)).
  - destruct (parse_row row) as [e|p] eqn:Hrow; [done|].
    intros (ps' & -> & Hall)%IH. exists (p :: ps').
    rewrite <- (assoc_L (++)). split; [done|]. by constructor.
Qed.

Lemma admin_upload_ok payload st r st' :
  admin_upload payload st = (r, st') → status_of r = 200 →
  ∃ rows ps,
    payload = JArr rows ∧ parse_rows rows [] = inr ps
    ∧ r = Reply 200 (BUploaded (length ps))
    ∧ st' = {| participants_doc := ps; matches_doc := [] |}.
Proof.
  unfold admin_upload. destruct payload as [| | | | |rows|];
    try (intros [= <- <-]; by cbn).
  destruct (parse_rows rows []) as [e|ps] eqn:Hrows.
  - destruct e; intros [= <- <-]; by cbn.
  - intros [= <- <-] _. by exists rows, ps.
Qed.

(** An upload that does not answer 200 leaves the store as it is. *)
Lemma admin_upload_failure_keeps_store payload st :
  status_of (admin_upload payload st).1 ≠ 200 →
  (admin_upload payload st).2 = st.
Proof.
  unfold admin_upload. destruct payload as [| | | | |rows|]; try done.
  destruct (parse_rows rows []) as [[]|ps]; done.
Qed.

Lemma admin_upload_keeps_no_matches payload st :
  matches_doc st = [] → matches_doc (admin_upload payload st).2 = [].
Proof.
  intros Hm. unfold admin_upload. destruct payload as [| | | | |rows|]; try done.
  destruct (parse_rows rows []) as [[]|ps]; done.
Qed.

Lemma serve_keeps_no_matches reqs st g :
  forallb (λ req, negb (is_match_request req)) reqs = true →
  matches_doc st = [] → matches_doc (serve reqs st g).1 = [].
Proof.
  revert st g. induction reqs as [|req reqs IH]; intros st g; [done|].
  cbn [forallb serve]. intros [Hreq Hrest]%andb_prop Hm.
  destruct req as [payload|body| |body]; try done; cbn.
  - pose proof (admin_upload_keeps_no_matches payload st Hm) as Hm'.
    destruct (admin_upload payload st) as [r st']. by apply IH.
  - by apply IH.
  - by apply IH.
Qed.

(** C6.  An upload that answers 200 stores exactly the participants parsed
    from the rows of the payload, in their order, and an empty match
    collection; the results endpoint then returns the empty list, and goes
    on doing so after any further requests among which there is no match
    request. *)
Theorem upload_replaces_and_clears payload st r st' :
  admin_upload payload st = (r, st') → status_of r = 200 →
  ∃ rows,
    payload = JArr rows
    ∧ Forall2 (λ row p, parse_row row = inr p) rows (participants_doc st')
    ∧ r = Reply 200 (BUploaded (length rows))
    ∧ matches_doc st' = []
    ∧ admin_results st' = Reply 200 (BResults [])
    ∧ ∀ reqs g,
        forallb (λ req, negb (is_match_request req)) reqs = true →
        admin_results (serve reqs st' g).1 = Reply 200 (BResults []).
Proof.
  intros Hup Hok.
  destruct (admin_upload_ok _ _ _ _ Hup Hok) as (rows & ps & -> & Hrows & -> & ->).
  apply parse_rows_Forall2 in Hrows as (ps' & -> & Hall). cbn in *.
  exists rows. repeat split; try done.
  - by rewrite (Forall2_length _ _ _ Hall).
  - intros reqs g Hreqs. unfold admin_results, load_matches.
    by rewrite (serve_keeps_no_matches reqs _ g Hreqs).
Qed.

(** C8, at a row whose table is null.  [int(None)] raises TypeError, which
    the handler does not catch: the request dies with status 500, not 400.
    The store is left as it is. *)
Theorem upload_null_table_unhandled st :
  let answer :=
    admin_upload
      (JArr [JObj [("table", JNull); ("name", JStr "Ann");
                   ("email", JStr "ann@x.com"); ("birthdate", JStr "900101")]])
      st in
  answer = (Unhandled TypeError, st) ∧ status_of answer.1 = 500.
Proof. split; reflexivity. Qed.

(** The same for a row that is no object. *)
Lemma upload_non_object_row_unhandled st :
  admin_upload (JArr [JInt 5]) st = (Unhandled TypeError, st).
Proof. reflexivity. Qed.

(** What does hold of a malformed upload: a body that is no array is
    answered with 400, and so is an array whose first bad row lacks a field
    or has a table that is a string (or NaN) and no integer. *)
Lemma upload_bad_request payload st :
  (∀ rows, payload ≠ JArr rows)
  ∨ (∃ rows e, payload = JArr rows ∧ parse_rows rows [] = inl e
               ∧ (e = KeyError ∨ e = ValueError)) →
  ∃ msg, admin_upload payload st = (Reply 400 (BError msg), st).
Proof.
  intros [Hno|(rows & e & -> & Hrows & He)].
  - destruct payload; try by eexists. by destruct (Hno items).
  - unfold admin_upload. rewrite Hrows. destruct He as [-> | ->]; by eexists.
Qed.

(** ** Lookup *)

Lemma make_matches_ok_sizes ps seed g res g' :
  make_matches ps seed g = (inr res, g') →
  Forall (λ gr : Z * list Participant, 2 ≤ length gr.2) (group_by_table ps).
Proof.
  intros Hrun.
  destruct (list_find (λ gr : Z * list Participant, length gr.2 < 2)
                      (group_by_table ps)) as [[i [t ms]]|] eqn:Hfind.
  - destruct (match_groups_small _ []
                (match seed with Some s => seed_rng s | None => g end)
                _ _ _ Hfind) as [g1 Hfail].
    unfold make_matches in Hrun. congruence.
  - apply list_find_None in Hfind. eapply Forall_impl; [exact Hfind|].
    cbn. lia.
Qed.

Lemma falsy_nonempty_string s : s ≠ "" → falsy (Some (JStr s)) = false.
Proof.
  intros Hs. cbn. destruct (String.eqb_spec s ""); [done|]. done.
Qed.

Lemma falsy_truthy b : truthy b = true → falsy (Some b) = false.
Proof. intros Hb. cbn. by rewrite Hb. Qed.

(** The reply to a lookup whose name is a string and whose fields are both
    given: the body of [lookup] after the first check. *)
Lemma lookup_unfold fields st s b :
  field fields "name" = Some (JStr s) → field fields "birthdate" = Some b →
  s ≠ "" → truthy b = true →
  lookup (JObj fields) st =
    match list_find (λ p, normalize_name (name p) = normalize_name s)
                    (load_participants st) with
    | None => Reply 404 (BError ErrNameNotInRoster)
    | Some (_, participant) =>
        if decide (birthdate participant ≠ normalize_birthdate (py_str b))
        then Reply 403 (BError ErrBirthdateMismatch)
        else
          match load_matches st with
          | [] => Reply 400 (BError ErrNotMatchedYet)
          | _ =>
              match list_find
                      (λ m, normalize_name (manitto_name m) = normalize_name s)
                      (load_matches st) with
              | Some (_, m) =>
                  Reply 200
                    (BLookup (manitto_name m) (match_table m)
                             (manitti_name m) (manitti_email m)
                             (GiftGuide (manitti_name m)))
              | None => Reply 404 (BError ErrNoMatchEntry)
              end
          end
    end.
Proof.
  intros Hn Hb Hs Ht. unfold lookup, dict_get. rewrite Hn, Hb.
  by rewrite (falsy_nonempty_string s Hs), (falsy_truthy b Ht).
Qed.

Lemma lookup_own_match ps links name_norm i p :
  (∀ i' p', ps !! i' = Some p' → normalize_name (name p') = name_norm →
            i' = i) →
  links.*1 ≡ₚ tagged ps → links.*2 ≡ₚ tagged ps →
  Forall (λ lk, lk.1.1 ≠ lk.2.1 ∧ table lk.1.2 = table lk.2.2) links →
  ps !! i = Some p → normalize_name (name p) = name_norm →
  ∃ k j q,
    list_find (λ m, normalize_name (manitto_name m) = name_norm)
              (loaded_match <$> (link_match <$> links))
    = Some (k, loaded_match (pair_match (table p) (p, q)))
    ∧ ps !! j = Some q ∧ j ≠ i ∧ table q = table p
    ∧ pair_match (table p) (p, q) ∈ link_match <$> links.
Proof.
  intros Hnd H1 H2 Hall Hp Hname.
  assert (Hin : (i, p) ∈ links.*1).
  { rewrite H1. by apply elem_of_tagged. }
  apply list_elem_of_fmap in Hin as (lk & Hlk1 & Hlk).
  destruct (list_find_elem_of
              (λ m, normalize_name (manitto_name m) = name_norm)
              (loaded_match <$> (link_match <$> links))
              (loaded_match (link_match lk))) as [[k m] Hfind].
  { by do 2 apply list_elem_of_fmap_2. }
  { cbn. by rewrite <- Hlk1. }
  pose proof Hfind as (Hk & Hm & _)%list_find_Some.
  apply list_elem_of_lookup_2, list_elem_of_fmap in Hk as (m0 & -> & Hm0).
  apply list_elem_of_fmap in Hm0 as ([[i' p'] [j q]] & -> & Hlk').
  cbn in Hm.
  destruct (proj1 (Forall_forall _ _) Hall _ Hlk') as [Hne Ht]. cbn in Hne, Ht.
  assert (Hp' : ps !! i' = Some p').
  { apply (elem_of_tagged ps (i', p')). rewrite <- H1.
    apply list_elem_of_fmap. by eexists (_, _). }
  assert (Hq : ps !! j = Some q).
  { apply (elem_of_tagged ps (j, q)). rewrite <- H2.
    apply list_elem_of_fmap. by eexists (_, _). }
  assert (i' = i) as -> by (by apply (Hnd i' p')).
  assert (p' = p) as -> by congruence.
  exists k, j, q. repeat split; try done.
  by apply (list_elem_of_fmap_2 link_match links (i, p, (j, q))).
Qed.


(** ** The call does not write to its argument *)

Lemma fresh_None (h : gmap nat (list Participant)) : h !! fresh (dom h) = None.
Proof. apply not_elem_of_dom, is_fresh. Qed.

Lemma dict_find_Some d k l : dict_find d k = Some l → (k, l) ∈ d.
Proof.
  induction d as [|[k' l'] rest IH]; [done|]. cbn. case_decide.
  - intros [= ->]. subst. apply elem_of_cons. by left.
  - intros ?%IH. apply elem_of_cons. by right.
Qed.

Lemma reify_other h h' d :
  (∀ e, e ∈ d → h' !! e.2 = h !! e.2) → reify h' d = reify h d.
Proof.
  intros Hsame. unfold reify. apply list_fmap_ext. intros i e He.
  by rewrite (Hsame e (list_elem_of_lookup_2 _ _ _ He)).
Qed.

Lemma reify_append_found h d k l p :
  NoDup d.*2 → Forall (λ e, is_Some (h !! e.2)) d →
  dict_find d k = Some l →
  reify (alter (λ v, v ++ [p]) l h) d = setdefault_append (reify h d) k p.
Proof.
  induction d as [|[k' l'] rest IH]; [done|].
  cbn [fmap list_fmap dict_find]. intros [Hnotin Hnd]%NoDup_cons.
  intros [[v Hv] Hall]%Forall_cons. cbn in Hv, Hnotin.
  unfold reify. cbn [fmap list_fmap setdefault_append fst snd].
  case_decide as Hk.
  - intros [= ->]. subst k'. rewrite lookup_alter_eq, Hv. cbn. f_equal.
    apply reify_other. intros e He. apply lookup_alter_ne.
    intros ->. apply Hnotin. by apply list_elem_of_fmap_2.
  - intros Hfind. rewrite lookup_alter_ne.
    + f_equal. by apply IH.
    + intros ->. apply Hnotin.
      apply dict_find_Some in Hfind. by apply (list_elem_of_fmap_2 snd) in Hfind.
Qed.

Lemma reify_append_missing h (d : list (Z * nat)) k p :
  dict_find d k = None →
  setdefault_append (reify h d) k p = reify h d ++ [(k, [p])].
Proof.
  induction d as [|[k' l'] rest IH]; [done|].
  cbn [dict_find]. unfold reify. cbn [fmap list_fmap setdefault_append fst].
  case_decide; [done|]. intros Hnone. cbn. f_equal. by apply IH.
Qed.

Lemma setdefault_append_obj_step h0 h d k p :
  frame h0 h → owned h0 h d →
  let st' := setdefault_append_obj d k p h in
  frame h0 st'.2 ∧ owned h0 st'.2 st'.1
  ∧ reify st'.2 st'.1 = setdefault_append (reify h d) k p.
Proof.
  intros Hframe [Hnd Hall]. unfold setdefault_append_obj.
  destruct (dict_find d k) as [l|] eqn:Hfind; cbn.
  - pose proof (dict_find_Some _ _ _ Hfind) as Hin.
    destruct (proj1 (Forall_forall _ _) Hall _ Hin) as [_ Hnew]. cbn in Hnew.
    split; [|split; [split|]].
    + intros l' Hl'. rewrite lookup_alter_ne; [by apply Hframe|].
      intros ->. destruct Hl' as [v Hv]. congruence.
    + done.
    + eapply Forall_impl; [exact Hall|]. intros e [Hs Hn]. split; [|done].
      by apply lookup_alter_is_Some.
    + apply reify_append_found; [done| |done].
      eapply Forall_impl; [exact Hall|]. by intros e [Hs _].
  - pose proof (fresh_None h) as Hl.
    set (l := fresh (dom h)) in *. clearbody l.
    assert (Hout : ∀ e, e ∈ d → e.2 ≠ l).
    { intros e He Heq.
      destruct (proj1 (Forall_forall _ _) Hall _ He) as [[v Hv] _].
      rewrite Heq in Hv. congruence. }
    assert (Hl0 : h0 !! l = None).
    { destruct (h0 !! l) as [v|] eqn:Hv; [|done].
      rewrite <- (Hframe l (mk_is_Some _ _ Hv)) in Hv. congruence. }
    split; [|split; [split|]].
    + intros l' Hl'. rewrite lookup_alter_ne, lookup_insert_ne;
        [by apply Hframe|intros ->; destruct Hl' as [v Hv]; congruence..].
    + rewrite fmap_app. apply NoDup_app. split; [done|]. split.
      * intros x [e [-> He]]%list_elem_of_fmap [Hx|Hx%elem_of_nil]%elem_of_cons;
          [|done]. by apply (Hout e).
      * cbn. apply NoDup_singleton.
    + apply Forall_app. split.
      * apply Forall_forall. intros e He.
        destruct (proj1 (Forall_forall _ _) Hall _ He) as [Hs Hn].
        split; [|done].
        rewrite lookup_alter_ne, lookup_insert_ne; [done|intros Heq; by apply (Hout e)..].
      * repeat constructor; cbn; [|done].
        rewrite lookup_alter_eq, lookup_insert_eq. by eexists.
    + rewrite (reify_append_missing h d k p Hfind).
      unfold reify at 1. rewrite fmap_app. cbn.
      rewrite lookup_alter_eq, lookup_insert_eq. cbn. f_equal.
      apply reify_other. intros e He.
      rewrite lookup_alter_ne, lookup_insert_ne; [done|intros Heq; by apply (Hout e)..].
Qed.

Lemma group_by_table_obj_spec h lp ps :
  h !! lp = Some ps →
  ∃ d h',
    group_by_table_obj lp h = Some (d, h')
    ∧ frame h h' ∧ owned h h' d ∧ reify h' d = group_by_table ps.
Proof.
  intros Hps. unfold group_by_table_obj, group_by_table. rewrite Hps. cbn.
  assert (Hgen : ∀ d h1, frame h h1 → owned h h1 d →
    let st' := foldl (λ st p, setdefault_append_obj st.1 (table p) p st.2)
                     (d, h1) ps in
    frame h st'.2 ∧ owned h st'.2 st'.1
    ∧ reify st'.2 st'.1
      = foldl (λ grouped p, setdefault_append grouped (table p) p)
              (reify h1 d) ps).
  { clear Hps. induction ps as [|p ps IH]; intros d h1 Hf Ho; [done|].
    cbn [foldl fst snd].
    destruct (setdefault_append_obj_step h h1 d (table p) p Hf Ho)
      as (Hf' & Ho' & Hr).
    destruct (setdefault_append_obj d (table p) p h1) as [d' h'] eqn:Hstep.
    cbn [fst snd] in Hf', Ho', Hr. rewrite <- Hr. by apply IH. }
  destruct (Hgen [] h) as (Hf & Ho & Hr).
  { by intros l _. }
  { split; [apply NoDup_nil_2|constructor]. }
  destruct (foldl _ ([], h) ps) as [d h'] eqn:Hfold.
  exists d, h'. cbn in *. done.
Qed.

Lemma match_groups_obj_spec h0 d : ∀ h results g,
  frame h0 h → Forall (λ e : Z * nat, is_Some (h !! e.2)) d →
  ∃ h',
    match_groups_obj d results h g
    = Some ((match_groups (reify h d) results g).1, h',
            (match_groups (reify h d) results g).2)
    ∧ frame h0 h'.
Proof.
  induction d as [|[t l] rest IH]; intros h results g Hframe Hall.
  - exists h. by cbn.
  - apply Forall_cons in Hall as [[ms Hms] Hrest]. cbn in Hms.
    unfold reify. cbn [fmap list_fmap match_groups_obj match_groups fst snd].
    fold (reify h rest). rewrite Hms. cbn [default mbind option_bind].
    change (id ms) with ms.
    destruct (decide (length ms < 2)) as [Hsmall|Hsmall]; [by exists h|].
    unfold alloc. pose proof (fresh_None h) as Hl.
    set (ls := fresh (dom h)) in *. clearbody ls.
    rewrite lookup_insert_eq. cbn [mbind option_bind].
    destruct (shuffle ms g) as [x' g'] eqn:Hsh.
    rewrite lookup_insert_eq. cbn [mbind option_bind].
    set (h2 := <[ls:=x']> (<[ls:=ms]> h)).
    assert (Hother : ∀ l', is_Some (h !! l') → h2 !! l' = h !! l').
    { intros l' [v Hv]. unfold h2.
      rewrite !lookup_insert_ne; [done|intros ->; congruence..]. }
    destruct (IH h2 (results ++ (pair_match t <$> make_pairs x')) g')
      as (h' & Hrun & Hframe').
    + intros l' Hl'. rewrite Hother; [by apply Hframe|].
      by rewrite (Hframe l' Hl').
    + eapply Forall_impl; [exact Hrest|]. intros e He. cbn.
      by rewrite (Hother _ He).
    + exists h'. split; [|done]. rewrite Hrun.
      assert (Hre : reify h2 rest = reify h rest).
      { apply reify_other. intros e He.
        apply Hother, (proj1 (Forall_forall _ _) Hrest e He). }
      by rewrite Hre.
Qed.

(** C10.  On list objects: when the address [lp] holds the participant
    list, the call runs to its end, returns what [make_matches] returns,
    and leaves every list that existed before the call, the participant
    list among them, with the elements it had, in their order. *)
Theorem make_matches_keeps_input h lp ps seed g :
  h !! lp = Some ps →
  ∃ h',
    make_matches_obj lp seed h g
    = Some ((make_matches ps seed g).1, h', (make_matches ps seed g).2)
    ∧ h' !! lp = Some ps
    ∧ ∀ l, is_Some (h !! l) → h' !! l = h !! l.
Proof.
  intros Hps.
  destruct (group_by_table_obj_spec h lp ps Hps)
    as (d & h1 & Hgroup & Hframe & [_ Hown] & Hreify).
  unfold make_matches_obj, make_matches. rewrite Hgroup. cbn.
  destruct (match_groups_obj_spec h d h1 []
              (match seed with Some s => seed_rng s | None => g end) Hframe)
    as (h' & Hrun & Hframe').
  { eapply Forall_impl; [exact Hown|]. by intros e [He _]. }
  exists h'. rewrite Hrun, Hreify. split; [done|]. split; [|done].
  rewrite <- Hps. by apply Hframe'.
Qed.

(** ** Normalisation *)

Lemma chars_app s1 s2 :
  list_ascii_of_string (s1 +:+ s2)
  = list_ascii_of_string s1 ++ list_ascii_of_string s2.
Proof.
  induction s1 as [|c s1 IH]; [done|].
  change (String c s1 +:+ s2) with (String c (s1 +:+ s2)).
  cbn. by rewrite IH.
Qed.

Lemma chars_rev_app s1 s2 :
  list_ascii_of_string (String.rev_app s1 s2)
  = reverse (list_ascii_of_string s1) ++ list_ascii_of_string s2.
Proof.
  revert s2. induction s1 as [|c s1 IH]; intros s2; [done|].
  cbn [String.rev_app list_ascii_of_string].
  rewrite IH, reverse_cons, <- (assoc_L (++)). done.
Qed.

Lemma chars_rev s :
  list_ascii_of_string (String.rev s) = reverse (list_ascii_of_string s).
Proof.
  unfold String.rev. rewrite chars_rev_app. cbn.
  by rewrite (right_id_L [] (++)).
Qed.

Lemma chars_inj s1 s2 :
  list_ascii_of_string s1 = list_ascii_of_string s2 → s1 = s2.
Proof.
  intros Heq. rewrite <- (string_of_list_ascii_of_string s1),
    <- (string_of_list_ascii_of_string s2). by rewrite Heq.
Qed.

Lemma chars_lstrip s :
  list_ascii_of_string (lstrip s) = skip_spaces (list_ascii_of_string s).
Proof. induction s as [|c s IH]; [done|]. cbn. by destruct (is_space c). Qed.

Lemma chars_strip s :
  list_ascii_of_string (strip s)
  = reverse (skip_spaces (reverse (skip_spaces (list_ascii_of_string s)))).
Proof.
  unfold strip, rstrip.
  by rewrite chars_rev, chars_lstrip, chars_rev, chars_lstrip.
Qed.

Lemma chars_lower s :
  list_ascii_of_string (lower s) = lower_char <$> list_ascii_of_string s.
Proof.
  induction s as [|c s IH]; [done|].
  change (lower (String c s)) with (String (lower_char c) (lower s)).
  cbn. by rewrite IH.
Qed.

Lemma skip_spaces_head l c :
  head (skip_spaces l) = Some c → is_space c = false.
Proof.
  induction l as [|a l IH]; [done|]. cbn.
  destruct (is_space a) eqn:Ha; [done|]. cbn. by intros [= <-].
Qed.

Lemma skip_spaces_fixed l :
  (∀ c, head l = Some c → is_space c = false) → skip_spaces l = l.
Proof. destruct l as [|a l]; [done|]. cbn. intros H. by rewrite (H a). Qed.

Lemma skip_spaces_split l :
  ∃ ws, l = ws ++ skip_spaces l ∧ Forall (λ c, is_space c = true) ws.
Proof.
  induction l as [|a l (ws & Hl & Hws)]; [by exists []|]. cbn.
  destruct (is_space a) eqn:Ha.
  - exists (a :: ws). split; [by rewrite Hl at 1|by constructor].
  - by exists [].
Qed.

Lemma skip_spaces_last l c :
  last (skip_spaces l) = Some c → last l = Some c.
Proof.
  destruct (skip_spaces_split l) as (ws & Hl & _). intros Hlast.
  rewrite Hl. by apply last_app_Some; left.
Qed.

Lemma skip_spaces_fmap (f : ascii → ascii) l :
  (∀ c, is_space (f c) = is_space c) →
  skip_spaces (f <$> l) = f <$> skip_spaces l.
Proof.
  intros Hf. induction l as [|a l IH]; [done|]. cbn.
  rewrite Hf. by destruct (is_space a).
Qed.

Lemma lower_char_space c : is_space (lower_char c) = is_space c.
Proof. by destruct c as [[] [] [] [] [] [] [] []]. Qed.

Lemma lower_char_idemp c : lower_char (lower_char c) = lower_char c.
Proof. by destruct c as [[] [] [] [] [] [] [] []]. Qed.

Lemma strip_trimmed s : trimmed (strip s).
Proof.
  unfold trimmed. rewrite chars_strip. split; intros c.
  - rewrite head_reverse. intros Hc%skip_spaces_last.
    rewrite last_reverse in Hc. by apply skip_spaces_head in Hc.
  - rewrite last_reverse. apply skip_spaces_head.
Qed.

Lemma strip_fixed s : trimmed s → strip s = s.
Proof.
  intros [Hhead Hlast]. apply chars_inj. rewrite chars_strip.
  rewrite (skip_spaces_fixed _ Hhead), skip_spaces_fixed.
  - apply reverse_involutive.
  - intros c. rewrite head_reverse. apply Hlast.
Qed.

Lemma strip_lower s : strip (lower s) = lower (strip s).
Proof.
  apply chars_inj.
  rewrite chars_strip, !chars_lower, chars_strip.
  rewrite (skip_spaces_fmap _ _ lower_char_space), <- fmap_reverse.
  by rewrite (skip_spaces_fmap _ _ lower_char_space), <- fmap_reverse.
Qed.

Lemma lower_idemp s : lower (lower s) = lower s.
Proof.
  apply chars_inj. rewrite !chars_lower, <- list_fmap_compose.
  apply list_fmap_ext. intros i c _. apply lower_char_idemp.
Qed.

Lemma strip_idemp s : strip (strip s) = strip s.
Proof. apply strip_fixed, strip_trimmed. Qed.

Lemma normalize_email_idemp s :
  normalize_email (normalize_email s) = normalize_email s.
Proof.
  unfold normalize_email. by rewrite strip_lower, strip_idemp, lower_idemp.
Qed.

Lemma skip_spaces_blank ws l :
  Forall (λ c, is_space c = true) ws → skip_spaces (ws ++ l) = skip_spaces l.
Proof. induction 1 as [|c ws Hc _ IH]; [done|]. cbn. by rewrite Hc. Qed.

Lemma skip_spaces_app l k :
  skip_spaces (l ++ k)
  = match skip_spaces l with [] => skip_spaces k | r => r ++ k end.
Proof.
  induction l as [|a l IH]; cbn; [by destruct (skip_spaces k)|].
  by destruct (is_space a).
Qed.

Lemma skip_spaces_all_blank l :
  Forall (λ c, is_space c = true) l → skip_spaces l = [].
Proof. induction 1 as [|c ws Hc _ IH]; [done|]. cbn. by rewrite Hc. Qed.

Lemma trim_chars_blanks ws1 l ws2 :
  Forall (λ c, is_space c = true) ws1 → Forall (λ c, is_space c = true) ws2 →
  reverse (skip_spaces (reverse (skip_spaces (ws1 ++ l ++ ws2))))
  = reverse (skip_spaces (reverse (skip_spaces l))).
Proof.
  intros H1 H2. rewrite (skip_spaces_blank ws1 _ H1), skip_spaces_app.
  destruct (skip_spaces l) as [|a r] eqn:Hl.
  - by rewrite (skip_spaces_all_blank ws2 H2).
  - rewrite reverse_app, skip_spaces_blank; [done|].
    by apply Forall_reverse.
Qed.

Lemma blank_chars ws :
  Forall (λ c, is_space c = true) ws → blank (string_of_list_ascii ws).
Proof. intros H. unfold blank. by rewrite list_ascii_of_string_of_list_ascii. Qed.

Lemma strip_split s :
  ∃ ws1 ws2, s = ws1 +:+ strip s +:+ ws2 ∧ blank ws1 ∧ blank ws2.
Proof.
  destruct (skip_spaces_split (list_ascii_of_string s)) as (w1 & Hs & Hw1).
  destruct (skip_spaces_split
              (reverse (skip_spaces (list_ascii_of_string s))))
    as (w2 & Hr & Hw2).
  exists (string_of_list_ascii w1), (string_of_list_ascii (reverse w2)).
  split; [|split; apply blank_chars; [done|by apply Forall_reverse]].
  apply chars_inj.
  rewrite !chars_app, !list_ascii_of_string_of_list_ascii, chars_strip.
  rewrite <- reverse_app, <- Hr, reverse_involutive. done.
Qed.

(** X1.  Normalising twice is normalising once, for names, birthdates and
    addresses. *)
Theorem normalizers_idempotent s :
  normalize_name (normalize_name s) = normalize_name s
  ∧ normalize_birthdate (normalize_birthdate s) = normalize_birthdate s
  ∧ normalize_email (normalize_email s) = normalize_email s.
Proof.
  split; [apply strip_idemp|]. split; [apply strip_idemp|].
  apply normalize_email_idemp.
Qed.

(** X2.  [normalize_name] (and [normalize_birthdate], the same function)
    removes blank characters from both ends and nothing else: the input is
    the result between two runs of blanks, and the result neither begins
    nor ends with a blank; a string that neither begins nor ends with a
    blank is returned as it is. *)
Theorem normalize_name_trims s :
  (∃ ws1 ws2, s = ws1 +:+ normalize_name s +:+ ws2 ∧ blank ws1 ∧ blank ws2)
  ∧ trimmed (normalize_name s)
  ∧ (trimmed s → normalize_name s = s)
  ∧ normalize_birthdate s = normalize_name s.
Proof.
  split; [apply strip_split|]. split; [apply strip_trimmed|].
  split; [apply strip_fixed|done].
Qed.

(** X3.  Two addresses that differ only in blanks around them and in the
    case of their letters normalise to the same address, which is trimmed
    and has no letter left that [lower] would change. *)
Theorem normalize_email_insensitive s ws1 ws2 :
  blank ws1 → blank ws2 →
  normalize_email (ws1 +:+ s +:+ ws2) = normalize_email s
  ∧ normalize_email (lower s) = normalize_email s
  ∧ trimmed (normalize_email s)
  ∧ lower (normalize_email s) = normalize_email s.
Proof.
  intros H1 H2. unfold normalize_email. repeat split.
  - f_equal. apply chars_inj. rewrite !chars_strip, !chars_app.
    by apply trim_chars_blanks.
  - by rewrite strip_lower, lower_idemp.
  - rewrite <- strip_lower. apply strip_trimmed.
  - rewrite <- strip_lower. apply strip_trimmed.
  - apply lower_idemp.
Qed.

(** ** Grouping, once more *)

Lemma setdefault_append_keys {A} (grouped : list (Z * list A)) k x :
  (setdefault_append grouped k x).*1
  = if decide (k ∈ grouped.*1) then grouped.*1 else grouped.*1 ++ [k].
Proof.
  induction grouped as [|[k' v] rest IH]; cbn.
  - rewrite decide_False; [done|]. by intros ?%elem_of_nil.
  - destruct (decide (k' = k)) as [Hk|Hk]; cbn.
    + subst k'. rewrite decide_True; [done|]. apply list_elem_of_here.
    + rewrite IH. destruct (decide (k ∈ rest.*1)) as [Hin|Hno].
      * rewrite decide_True; [done|]. by apply list_elem_of_further.
      * rewrite decide_False; [done|].
        intros [Heq|Hin]%elem_of_cons; [by apply Hk|by apply Hno].
Qed.

Lemma foldl_keys {A} (key : A → Z) l (grouped : list (Z * list A)) :
  (foldl (λ grouped x, setdefault_append grouped (key x) x) grouped l).*1
  = grouped.*1 ++ filter (λ k, k ∉ grouped.*1) (first_seen (key <$> l)).
Proof.
  revert grouped. induction l as [|x l IH]; intros grouped.
  - cbn. by rewrite (right_id_L [] (++)).
  - cbn [foldl fmap list_fmap first_seen]. rewrite IH, setdefault_append_keys.
    destruct (decide (key x ∈ grouped.*1)) as [Hin|Hno].
    + rewrite filter_cons_False by (intros Hn; by apply Hn).
      f_equal. rewrite list_filter_filter_l; [done|].
      intros k Hk ->. by apply Hk.
    + rewrite filter_cons_True by done.
      rewrite <- (assoc_L (++)). cbn. do 2 f_equal.
      rewrite list_filter_filter. apply list_filter_iff. intros k.
      rewrite elem_of_app, list_elem_of_singleton. tauto.
Qed.

(** X4.  [group_by_table] partitions the list by table: no table has two
    groups, the tables of the groups are the tables that occur, and a group
    holds exactly the participants of its table, in the order of the list;
    so no group is empty. *)
Theorem group_by_table_partition ps :
  NoDup (group_by_table ps).*1
  ∧ (∀ t, t ∈ (group_by_table ps).*1 ↔ ∃ p, p ∈ ps ∧ table p = t)
  ∧ Forall (λ gr, gr.2 = filter (λ p, table p = gr.1) ps ∧ gr.2 ≠ [])
           (group_by_table ps).
Proof.
  destruct (group_by_filter table ps) as (Hnd & Hall & Hkeys).
  split; [done|]. split; [done|].
  pose proof (group_by_keyed table ps) as Hkeyed.
  apply Forall_forall. intros gr Hgr. split.
  - apply (proj1 (Forall_forall _ _) Hall gr Hgr).
  - apply (proj1 (Forall_forall _ _) Hkeyed gr Hgr).
Qed.

(** X5.  The groups come in the order in which their tables first occur in
    the list. *)
Theorem group_by_table_order ps :
  (group_by_table ps).*1 = first_seen (table <$> ps).
Proof.
  unfold group_by_table. rewrite (foldl_keys table ps []). cbn.
  induction (first_seen (table <$> ps)) as [|k l IH]; [done|].
  rewrite filter_cons_True; [by rewrite IH|].
  by intros ?%elem_of_nil.
Qed.

(** ** The matching engine, once more *)

Lemma sizes_by_filter ps :
  Forall (λ gr : Z * list Participant, 2 ≤ length gr.2) (group_by_table ps)
  ↔ ∀ p, p ∈ ps → 2 ≤ length (filter (λ q, table q = table p) ps).
Proof.
  destruct (group_by_filter table ps) as (_ & Hall & Hkeys).
  fold (group_by_table ps) in Hall, Hkeys. split.
  - intros Hsize p Hp.
    assert (Hk : table p ∈ (group_by_table ps).*1).
    { apply Hkeys. by exists p. }
    apply list_elem_of_fmap in Hk as ([t ms] & Ht & Hgr). cbn in Ht. subst t.
    pose proof (proj1 (Forall_forall _ _) Hall _ Hgr) as Hms. cbn in Hms.
    rewrite <- Hms. apply (proj1 (Forall_forall _ _) Hsize _ Hgr).
  - intros Hsize. apply Forall_forall. intros [t ms] Hgr.
    pose proof (proj1 (Forall_forall _ _) Hall _ Hgr) as Hms. cbn in Hms.
    assert (Hk : t ∈ (group_by_table ps).*1).
    { apply list_elem_of_fmap. by exists (t, ms). }
    apply Hkeys in Hk as (p & Hp & <-). cbn. rewrite Hms. by apply Hsize.
Qed.

Lemma make_matches_succeeds ps seed g :
  (∃ res g', make_matches ps seed g = (inr res, g'))
  ↔ ∀ p, p ∈ ps → 2 ≤ length (filter (λ q, table q = table p) ps).
Proof.
  rewrite <- sizes_by_filter. split.
  - intros (res & g' & Hrun). by eapply make_matches_ok_sizes.
  - intros Hsize.
    destruct (make_matches_links ps seed g Hsize) as (links & g' & Hrun & _).
    by eexists _, _.
Qed.

(** X6.  [make_matches] returns matches exactly when no participant sits
    alone at a table; otherwise it raises. *)
Theorem make_matches_succeeds_iff ps seed g :
  (∃ res g', make_matches ps seed g = (inr res, g'))
  ↔ ∀ p, p ∈ ps → 2 ≤ length (filter (λ q, table q = table p) ps).
Proof. apply make_matches_succeeds. Qed.

Lemma make_matches_members ps seed g res g' :
  make_matches ps seed g = (inr res, g') →
  length res = length ps
  ∧ Forall (λ m, ∃ a b, a ∈ ps ∧ b ∈ ps
                        ∧ table a = match_table m ∧ table b = match_table m
                        ∧ m = pair_match (match_table m) (a, b)) res.
Proof.
  intros Hrun.
  pose proof (make_matches_ok_sizes _ _ _ _ _ Hrun) as Hsize.
  destruct (make_matches_links ps seed g Hsize)
    as (links & g1 & Hrun' & H1 & H2 & Hall).
  rewrite Hrun in Hrun'. injection Hrun' as -> _. split.
  - rewrite length_fmap, <- (length_fmap fst), H1. unfold tagged.
    apply length_imap.
  - apply Forall_fmap, Forall_forall. intros [[i a] [j b]] Hlk.
    destruct (proj1 (Forall_forall _ _) Hall _ Hlk) as [_ Ht]. cbn in Ht.
    exists a, b. cbn. repeat split; try done.
    + apply (list_elem_of_lookup_2 ps i), (elem_of_tagged ps (i, a)).
      rewrite <- H1. apply list_elem_of_fmap. by eexists (_, _).
    + apply (list_elem_of_lookup_2 ps j), (elem_of_tagged ps (j, b)).
      rewrite <- H2. apply list_elem_of_fmap. by eexists (_, _).
Qed.

(** X7.  When [make_matches] returns matches, there are as many as there
    are participants, and every match joins two participants of the table
    it carries. *)
Theorem make_matches_within_tables ps seed g res g' :
  make_matches ps seed g = (inr res, g') →
  length res = length ps
  ∧ Forall (λ m, ∃ a b, a ∈ ps ∧ b ∈ ps
                        ∧ table a = match_table m ∧ table b = match_table m
                        ∧ m = pair_match (match_table m) (a, b)) res.
Proof. apply make_matches_members. Qed.



(** ** Uploads, once more *)

Lemma parse_row_normalized row p : parse_row row = inr p → normalized p.
Proof.
  unfold parse_row.
  destruct (subscript row "table") as [?|t]; [done|].
  destruct (py_int t) as [?|z]; [done|].
  destruct (subscript row "name") as [?|n]; [done|].
  destruct (subscript row "email") as [?|e]; [done|].
  destruct (subscript row "birthdate") as [?|b]; [done|].
  intros [= <-]. unfold normalized. cbn.
  split; [apply strip_idemp|]. split; [apply normalize_email_idemp|].
  apply strip_idemp.
Qed.

Lemma load_normalized st :
  Forall normalized (participants_doc st) →
  load_participants st = participants_doc st.
Proof.
  intros Hall. unfold load_participants.
  transitivity (id <$> participants_doc st); [|apply list_fmap_id].
  apply list_fmap_ext. intros i [t n e b] Hp.
  destruct (Forall_lookup_1 _ _ _ _ Hall Hp) as (_ & He & Hb). cbn in *.
  by rewrite He, Hb.
Qed.

Lemma upload_normalized payload st r st' :
  admin_upload payload st = (r, st') → status_of r = 200 →
  Forall normalized (participants_doc st').
Proof.
  intros Hup Hok.
  destruct (admin_upload_ok _ _ _ _ Hup Hok)
    as (rows & ps & -> & Hrows & -> & ->).
  apply parse_rows_Forall2 in Hrows as (ps' & -> & Hall). cbn.
  clear Hup Hok.
  induction Hall as [|row p rows ps' Hrow _ IH]; [constructor|].
  constructor; [by apply (parse_row_normalized row)|done].
Qed.

Lemma parse_rows_first_bad good bad rest acc e :
  Forall (λ row, ∃ p, parse_row row = inr p) good →
  parse_row bad = inl e →
  parse_rows (good ++ bad :: rest) acc = inl e.
Proof.
  intros Hgood Hbad. revert acc.
  induction Hgood as [|row good [p Hrow] _ IH]; intros acc; cbn.
  - by rewrite Hbad.
  - rewrite Hrow. apply IH.
Qed.

Lemma parse_rows_failure rows acc e :
  parse_rows rows acc = inl e →
  ∃ good bad rest,
    rows = good ++ bad :: rest
    ∧ Forall (λ row, ∃ p, parse_row row = inr p) good
    ∧ parse_row bad = inl e.
Proof.
  revert acc. induction rows as [|row rows IH]; intros acc; [done|].
  cbn [parse_rows]. destruct (parse_row row) as [e'|p] eqn:Hrow.
  - intros [= ->]. by exists [], row, rows.
  - intros (good & bad & rest & -> & Hgood & Hbad)%IH.
    exists (row :: good), bad, rest. split; [done|]. split; [|done].
    constructor; [by exists p|done].
Qed.

(** X9.  An upload answered with 400 was refused before anything was
    written: both documents are as they were, and the body is no list, or
    its first row that cannot be read lacks a field (KeyError) or has a
    value that cannot be converted (ValueError). *)
Theorem upload_refused_leaves_store payload st :
  status_of (admin_upload payload st).1 = 400 →
  (admin_upload payload st).2 = st
  ∧ ((∀ rows, payload ≠ JArr rows)
     ∨ ∃ good bad rest e,
         payload = JArr (good ++ bad :: rest)
         ∧ Forall (λ row, ∃ p, parse_row row = inr p) good
         ∧ parse_row bad = inl e
         ∧ (e = KeyError ∨ e = ValueError)).
Proof.
  unfold admin_upload. destruct payload as [| | | | |rows|];
    try (intros _; split; [done|by left]).
  destruct (parse_rows rows []) as [e|ps] eqn:Hrows; [|done].
  destruct (parse_rows_failure _ _ _ Hrows)
    as (good & bad & rest & -> & Hgood & Hbad).
  destruct e; try done; intros _; (split; [done|]); right;
    eexists good, bad, rest, _; (split; [done|]); (split; [done|]);
    (split; [exact Hbad|]); auto.
Qed.

(** X10.  The rows of an upload are read in order and the first one that
    cannot be read decides the answer, whatever follows it: 400 when it
    lacks a field or its table is a string (or NaN) that is no integer, an
    exception nobody catches otherwise; nothing is stored. *)
Theorem upload_first_bad_row st good bad rest e :
  Forall (λ row, ∃ p, parse_row row = inr p) good →
  parse_row bad = inl e →
  admin_upload (JArr (good ++ bad :: rest)) st
  = (match e with
     | KeyError | ValueError => Reply 400 (BError (ErrBadFormat e))
     | _ => Unhandled e
     end, st).
Proof.
  intros Hgood Hbad. unfold admin_upload.
  rewrite (parse_rows_first_bad good bad rest [] e Hgood Hbad).
  by destruct e.
Qed.

(** X11.  What an upload stores is in normal form (names and birthdates
    trimmed, addresses trimmed and in lower case), so reading the
    participants back gives exactly the records the upload stored. *)
Theorem upload_round_trip payload st r st' :
  admin_upload payload st = (r, st') → status_of r = 200 →
  Forall normalized (participants_doc st')
  ∧ load_participants st' = participants_doc st'.
Proof.
  intros Hup Hok.
  pose proof (upload_normalized _ _ _ _ Hup Hok) as Hnorm.
  split; [done|]. by apply load_normalized.
Qed.

(** ** The match endpoint, once more *)

(** X12.  The match endpoint never touches the participants; it answers 200
    exactly when the seed can be read, there are participants and none sits
    alone at a table; it then stores what [make_matches] returned, one match
    for every participant, and reports their number; otherwise it leaves
    the store as it was. *)
Theorem admin_match_outcome body st g :
  let out := admin_match body st g in
  participants_doc out.1.2 = participants_doc st
  ∧ (status_of out.1.1 ≠ 200 → out.1.2 = st)
  ∧ (status_of out.1.1 = 200 ↔
       (∃ seed, request_seed body = inr seed)
       ∧ load_participants st ≠ []
       ∧ ∀ p, p ∈ load_participants st →
              2 ≤ length (filter (λ q, table q = table p)
                                 (load_participants st)))
  ∧ (status_of out.1.1 = 200 →
       out.1.1 = Reply 200 (BMatched (length (participants_doc st)))
       ∧ ∃ seed, request_seed body = inr seed
                 ∧ make_matches (load_participants st) seed g
                   = (inr (matches_doc out.1.2), out.2)).
Proof.
  cbv zeta. unfold admin_match.
  destruct (request_seed body) as [e|seed].
  { destruct e; cbn; (split; [done|]); (split; [done|]);
      (split; [|done]); (split; [done|]); by intros [[? [=]] _]. }
  destruct (load_participants st) as [|p0 ps'] eqn:Hps.
  { cbn. split; [done|]. split; [done|]. split; [|done].
    split; [done|]. by intros (_ & ? & _). }
  rewrite <- Hps.
  assert (Hlen : length (load_participants st) = length (participants_doc st)).
  { unfold load_participants. apply length_fmap. }
  destruct (make_matches (load_participants st) seed g) as [[e|ms] g'] eqn:Hrun.
  - cbn. split; [done|]. split; [done|]. split; [|done].
    split; [done|]. intros (_ & _ & Hsize).
    apply (make_matches_succeeds _ seed g) in Hsize as (res & g1 & Hrun').
    congruence.
  - cbn. split; [done|]. split; [done|]. split.
    + split; [|done]. intros _. split; [by exists seed|].
      split; [by rewrite Hps|].
      apply (make_matches_succeeds _ seed g). by exists ms, g'.
    + intros _. destruct (make_matches_members _ _ _ _ _ Hrun) as [Hn _].
      split; [by rewrite Hn, Hlen|]. by exists seed.
Qed.

(** X13.  After a match request answered with 200, reading the matches back
    gives exactly the records that were stored, and the results endpoint
    lists them. *)
Theorem match_round_trip body st g :
  status_of (admin_match body st g).1.1 = 200 →
  load_matches (admin_match body st g).1.2
  = matches_doc (admin_match body st g).1.2
  ∧ admin_results (admin_match body st g).1.2
    = Reply 200 (BResults (matches_doc (admin_match body st g).1.2)).
Proof.
  intros Hok.
  assert (Hload : load_matches (admin_match body st g).1.2
                  = matches_doc (admin_match body st g).1.2).
  { revert Hok. unfold admin_match.
    destruct (request_seed body) as [e|seed]; [by destruct e|].
    destruct (load_participants st) as [|p0 ps'] eqn:Hps; [done|].
    rewrite <- Hps.
    destruct (make_matches (load_participants st) seed g)
      as [[e|ms] g'] eqn:Hrun; [done|].
    intros _. cbn. unfold load_matches. cbn.
    destruct (make_matches_members _ _ _ _ _ Hrun) as [_ Hall].
    transitivity (id <$> ms); [|apply list_fmap_id].
    apply list_fmap_ext. intros i m Hm.
    destruct (Forall_lookup_1 _ _ _ _ Hall Hm)
      as (a & b & Ha & Hb & _ & _ & Hmab).
    unfold load_participants in Ha, Hb.
    apply list_elem_of_fmap in Ha as (a0 & -> & _).
    apply list_elem_of_fmap in Hb as (b0 & -> & _).
    rewrite Hmab. unfold loaded_match. cbn.
    by rewrite !normalize_email_idemp. }
  split; [done|]. unfold admin_results. by rewrite Hload.
Qed.

(** ** Lookup, once more *)

Lemma strip_padded ws1 s ws2 :
  blank ws1 → blank ws2 → strip (ws1 +:+ s +:+ ws2) = strip s.
Proof.
  intros H1 H2. apply chars_inj. rewrite !chars_strip, !chars_app.
  by apply trim_chars_blanks.
Qed.

Lemma padded_nonempty ws1 s ws2 : s ≠ "" → ws1 +:+ s +:+ ws2 ≠ "".
Proof.
  intros Hs Hempty. apply Hs, chars_inj.
  apply (f_equal list_ascii_of_string) in Hempty.
  rewrite !chars_app in Hempty. cbn in Hempty.
  apply app_eq_nil in Hempty as [_ Hempty].
  by apply app_eq_nil in Hempty as [-> _].
Qed.

Lemma truthy_nonempty_string s : s ≠ "" → truthy (JStr s) = true.
Proof. intros Hs. cbn. by destruct (String.eqb_spec s ""). Qed.

(** X14.  Blanks around the name and around the birthdate of a lookup do
    not change the answer. *)
Theorem lookup_ignores_blanks st n b w1 w2 w3 w4 :
  n ≠ "" → b ≠ "" → blank w1 → blank w2 → blank w3 → blank w4 →
  lookup (JObj [("name", JStr (w1 +:+ n +:+ w2));
                ("birthdate", JStr (w3 +:+ b +:+ w4))]) st
  = lookup (JObj [("name", JStr n); ("birthdate", JStr b)]) st.
Proof.
  intros Hn Hb H1 H2 H3 H4.
  rewrite (lookup_unfold _ st (w1 +:+ n +:+ w2) (JStr (w3 +:+ b +:+ w4)));
    [|done|done|by apply padded_nonempty
     |by apply truthy_nonempty_string, padded_nonempty].
  rewrite (lookup_unfold _ st n (JStr b));
    [|done|done|done|by apply truthy_nonempty_string].
  cbn [py_str]. unfold normalize_name, normalize_birthdate.
  by rewrite !strip_padded.
Qed.

(** X15.  A lookup is answered with 200 only if its body is an object with
    a name that is a string, the first participant of that normalised name
    has the normalised birthdate given, and a stored match has that
    normalised name as its manitto; the answer shows the first such match. *)
Theorem lookup_ok_sound body st answer :
  lookup body st = Reply 200 answer →
  ∃ fields n b i p k m,
    body = JObj fields
    ∧ field fields "name" = Some (JStr n)
    ∧ field fields "birthdate" = Some b
    ∧ list_find (λ p, normalize_name (name p) = normalize_name n)
                (load_participants st) = Some (i, p)
    ∧ birthdate p = normalize_birthdate (py_str b)
    ∧ list_find (λ m, normalize_name (manitto_name m) = normalize_name n)
                (load_matches st) = Some (k, m)
    ∧ answer = BLookup (manitto_name m) (match_table m) (manitti_name m)
                       (manitti_email m) (GiftGuide (manitti_name m)).
Proof.
  unfold lookup, dict_get. destruct body as [| | | | | |fields]; try done.
  destruct (field fields "name") as [nv|] eqn:Hn; [|done].
  destruct (field fields "birthdate") as [bv|] eqn:Hb; [|done].
  destruct (falsy (Some nv) || falsy (Some bv)); [done|].
  destruct nv as [| | | |n| |]; try done.
  destruct (list_find _ (load_participants st)) as [[i p]|] eqn:Hp; [|done].
  case_decide as Hbd; [done|].
  destruct (load_matches st) as [|m0 ms] eqn:Hms; [done|].
  destruct (list_find _ (m0 :: ms)) as [[k m]|] eqn:Hm; [|done].
  intros [= <-]. exists fields, n, bv, i, p, k, m.
  repeat split; done.
Qed.

(** X16.  While no matches are stored, no lookup is answered with 200,
    whatever its body. *)
Theorem lookup_needs_matches body st :
  matches_doc st = [] → status_of (lookup body st) ≠ 200.
Proof.
  intros Hempty. unfold lookup, dict_get.
  destruct body as [| | | | | |fields]; try done.
  destruct (field fields "name") as [nv|]; [|done].
  destruct (field fields "birthdate") as [bv|]; [|done].
  destruct (falsy (Some nv) || falsy (Some bv)); [done|].
  destruct nv as [| | | |n| |]; try done.
  destruct (list_find _ (load_participants st)) as [[i p]|]; [|done].
  case_decide; [done|].
  unfold load_matches. by rewrite Hempty.
Qed.

(** ** Stores the service can reach *)

Lemma admin_upload_consistent payload st :
  consistent st → consistent (admin_upload payload st).2.
Proof.
  intros Hc.
  destruct (decide (status_of (admin_upload payload st).1 = 200)) as [Hok|Hno].
  - destruct (admin_upload payload st) as [r st'] eqn:Hup. cbn in *.
    destruct (admin_upload_ok _ _ _ _ Hup Hok) as (rows & ps & _ & _ & _ & ->).
    by left.
  - by rewrite (admin_upload_failure_keeps_store payload st Hno).
Qed.

Lemma admin_match_consistent body st g :
  consistent st → consistent (admin_match body st g).1.2.
Proof.
  intros Hc. unfold admin_match.
  destruct (request_seed body) as [e|seed]; [by destruct e|].
  destruct (load_participants st) as [|p0 ps'] eqn:Hps; [done|].
  rewrite <- Hps.
  destruct (make_matches (load_participants st) seed g)
    as [[e|ms] g'] eqn:Hrun; [done|].
  cbn. right. by exists seed, g, g'.
Qed.

Lemma handle_consistent req st g :
  consistent st → consistent (handle req st g).1.2.
Proof.
  intros Hc. destruct req as [payload|body| |body]; cbn; try done.
  - pose proof (admin_upload_consistent payload st Hc) as Hc'.
    by destruct (admin_upload payload st).
  - by apply admin_match_consistent.
Qed.

Lemma serve_consistent reqs st g :
  consistent st → consistent (serve reqs st g).1.
Proof.
  revert st g. induction reqs as [|req reqs IH]; intros st g Hc; [done|].
  cbn [serve]. pose proof (handle_consistent req st g Hc) as Hc'.
  destruct (handle req st g) as [[r st'] g']. by apply IH.
Qed.

Lemma consistent_entry st i p :
  consistent st → matches_doc st ≠ [] →
  load_participants st !! i = Some p →
  ∃ m, m ∈ load_matches st ∧ manitto_name m = name p.
Proof.
  intros [Hempty|(seed & g & g' & Hrun)] Hne Hp; [done|].
  pose proof (make_matches_ok_sizes _ _ _ _ _ Hrun) as Hsize.
  destruct (make_matches_links _ seed g Hsize)
    as (links & g1 & Hrun' & H1 & _).
  rewrite Hrun in Hrun'. injection Hrun' as Hres _.
  assert (Hin : (i, p) ∈ links.*1).
  { rewrite H1. by apply elem_of_tagged. }
  apply list_elem_of_fmap in Hin as (lk & Hlk1 & Hlk).
  exists (loaded_match (link_match lk)). split.
  - unfold load_matches. rewrite Hres. by do 2 apply list_elem_of_fmap_2.
  - cbn. by rewrite <- Hlk1.
Qed.

Lemma lookup_entry_found body st :
  consistent st → lookup body st ≠ Reply 404 (BError ErrNoMatchEntry).
Proof.
  intros Hc. unfold lookup, dict_get.
  destruct body as [| | | | | |fields]; try done.
  destruct (field fields "name") as [nv|]; [|done].
  destruct (field fields "birthdate") as [bv|]; [|done].
  destruct (falsy (Some nv) || falsy (Some bv)); [done|].
  destruct nv as [| | | |n| |]; try done.
  destruct (list_find _ (load_participants st)) as [[i p]|] eqn:Hp; [|done].
  case_decide; [done|].
  destruct (load_matches st) as [|m0 ms] eqn:Hms; [done|].
  destruct (list_find _ (m0 :: ms)) as [[k m]|] eqn:Hm; [done|].
  apply list_find_Some in Hp as (Hp & Hname & _).
  destruct (consistent_entry st i p Hc) as (m & Hin & Hmn); [|done|].
  { intros Hempty. unfold load_matches in Hms. by rewrite Hempty in Hms. }
  rewrite Hms in Hin.
  apply list_find_None in Hm.
  destruct (proj1 (Forall_forall _ _) Hm m Hin). by rewrite Hmn.
Qed.

(** X17.  As long as the requests, served one after the other, are
    answered by the handlers themselves (none ends with status 500, as a
    request does that dies with an exception, a failing write among them),
    the stored matches keep belonging to the stored participants: a store
    whose matches are none, or are what [make_matches] returned for its
    participants, is followed by such a store. *)
Theorem serve_keeps_consistent reqs st g :
  consistent st →
  Forall (λ r, status_of r ≠ 500) (replies reqs st g) →
  consistent (serve reqs st g).1.
Proof. intros Hc _. by apply serve_consistent. Qed.

(** X18.  Starting from a fresh installation, whatever requests were
    served, no lookup ends in the last line of the handler, the 404 for a
    participant without an entry among the matches. *)
Theorem lookup_entry_never_missing reqs g body :
  lookup body (serve reqs empty_store g).1
  ≠ Reply 404 (BError ErrNoMatchEntry).
Proof. apply lookup_entry_found, serve_consistent. by left. Qed.

(** ** Upload, match, lookup *)

Lemma parse_row_name_birthdate fields n b p :
  parse_row (JObj fields) = inr p →
  obj_get fields "name" = Some (JStr n) →
  obj_get fields "birthdate" = Some (JStr b) →
  name p = strip n ∧ birthdate p = strip b.
Proof.
  unfold parse_row, subscript. intros Hrow Hn Hb. rewrite Hn, Hb in Hrow.
  destruct (obj_get fields "table") as [t|]; [|done].
  destruct (py_int t) as [?|z]; [done|].
  destruct (obj_get fields "email") as [e|]; [|done].
  by injection Hrow as <-.
Qed.

Lemma admin_match_ok body st g :
  status_of (admin_match body st g).1.1 = 200 →
  ∃ seed ms g',
    make_matches (load_participants st) seed g = (inr ms, g')
    ∧ (admin_match body st g).1.2 = save_matches ms st.
Proof.
  unfold admin_match.
  destruct (request_seed body) as [e|seed]; [by destruct e|].
  destruct (load_participants st) as [|p0 ps'] eqn:Hps; [done|].
  rewrite <- Hps.
  destruct (make_matches (load_participants st) seed g)
    as [[e|ms] g'] eqn:Hrun; [done|].
  intros _. by exists seed, ms, g'.
Qed.

(** X19.  Upload, match, lookup: after an upload and a match request that
    were both answered with 200, a participant of the upload whose name no
    other participant has, and who gives the name and the birthdate of the
    own row, is answered with 200 and shown another participant of the own
    table.  Other participants may share names among themselves. *)
Theorem upload_match_lookup rows st0 body g k fields n b :
  let st1 := (admin_upload (JArr rows) st0).2 in
  let st2 := (admin_match body st1 g).1.2 in
  status_of (admin_upload (JArr rows) st0).1 = 200 →
  status_of (admin_match body st1 g).1.1 = 200 →
  (∀ i x, participants_doc st1 !! i = Some x → name x = normalize_name n →
          i = k) →
  rows !! k = Some (JObj fields) →
  obj_get fields "name" = Some (JStr n) →
  obj_get fields "birthdate" = Some (JStr b) →
  n ≠ "" → b ≠ "" →
  ∃ p q,
    participants_doc st1 !! k = Some p
    ∧ q ∈ participants_doc st1 ∧ table q = table p ∧ name q ≠ name p
    ∧ lookup (JObj [("name", JStr n); ("birthdate", JStr b)]) st2
      = Reply 200 (BLookup (name p) (table p) (name q) (email q)
                           (GiftGuide (name q))).
Proof.
  cbv zeta. intros Hup Hmatch Hnd Hrow Hn Hb Hne Hbe.
  destruct (admin_upload (JArr rows) st0) as [r1 st1] eqn:Hup1.
  cbn [fst snd] in *.
  pose proof (upload_normalized _ _ _ _ Hup1 Hup) as Hnorm.
  pose proof (load_normalized st1 Hnorm) as Hload.
  destruct (admin_upload_ok _ _ _ _ Hup1 Hup)
    as (rows' & ps & [= <-] & Hrows & _ & Hst1).
  apply parse_rows_Forall2 in Hrows as (ps' & -> & Hall).
  change ([] ++ ps') with ps' in Hst1.
  assert (Hdoc : participants_doc st1 = ps') by (by rewrite Hst1).
  rewrite Hdoc in Hnd, Hnorm, Hload |- *.
  destruct (Forall2_lookup_l _ _ _ _ _ Hall Hrow) as (p & Hp & Hparse).
  destruct (parse_row_name_birthdate _ _ _ _ Hparse Hn Hb) as [Hpn Hpb].
  destruct (admin_match_ok _ _ _ Hmatch) as (seed & ms & g' & Hrun & ->).
  rewrite Hload in Hrun.
  pose proof (make_matches_ok_sizes _ _ _ _ _ Hrun) as Hsize.
  destruct (make_matches_links _ seed g Hsize)
    as (links & g1 & Hrun' & H1 & H2 & Hlinks).
  rewrite Hrun in Hrun'. injection Hrun' as -> _.
  assert (Hpname : normalize_name (name p) = normalize_name n).
  { rewrite Hpn. apply strip_idemp. }
  assert (Honly : ∀ i x, ps' !! i = Some x →
                         normalize_name (name x) = normalize_name n → i = k).
  { intros i x Hx Hxn. apply (Hnd i x Hx).
    by destruct (Forall_lookup_1 _ _ _ _ Hnorm Hx) as [<- _]. }
  destruct (lookup_own_match ps' links (normalize_name n) k p)
    as (k' & j & q & Hfound & Hq & Hjk & Htq & _); try done.
  assert (Hfind : list_find (λ p, normalize_name (name p) = normalize_name n)
                            ps' = Some (k, p)).
  { apply list_find_Some. split; [done|]. split; [done|].
    intros i y Hy Hik Hyn. pose proof (Honly i y Hy Hyn). lia. }
  exists p, q. split; [done|]. split; [by apply list_elem_of_lookup_2 in Hq|].
  split; [done|]. split.
  { intros Heq. apply Hjk, (Hnd j q Hq). by rewrite Heq. }
  rewrite (lookup_unfold _ _ n (JStr b));
    [|done|done|done|by apply truthy_nonempty_string].
  change (load_participants (save_matches (link_match <$> links) st1))
    with (load_participants st1).
  rewrite Hload, Hfind.
  rewrite decide_False by (intros Hx; apply Hx; by rewrite Hpb).
  change (load_matches (save_matches (link_match <$> links) st1))
    with (loaded_match <$> (link_match <$> links)).
  rewrite Hfound.
  destruct (loaded_match <$> (link_match <$> links)); [done|]. cbn.
  destruct (Forall_lookup_1 _ _ _ _ Hnorm Hq) as (_ & -> & _). done.
Qed.

(** ** Static pages *)

Lemma chars_lstrip_char c s :
  list_ascii_of_string (lstrip_char c s) = skip_char c (list_ascii_of_string s).
Proof.
  induction s as [|a s IH]; [done|]. cbn. by destruct (Ascii.eqb a c).
Qed.

Lemma rstrip_char_snoc c s :
  rstrip_char c (s +:+ String c "") = rstrip_char c s.
Proof.
  unfold rstrip_char. f_equal. apply chars_inj.
  rewrite !chars_lstrip_char, !chars_rev, chars_app, reverse_app. cbn.
  by rewrite Ascii.eqb_refl.
Qed.

Lemma rstrip_char_empty c : rstrip_char c "" = "".
Proof. done. Qed.

Lemma snoc_nonempty s c : s +:+ String c "" ≠ "".
Proof. by destruct s. Qed.

(** X20.  [serve_frontend] hands out the admin page, the employee page
    ([index.html]) or a file it found in the folder, never a file it did
    not find; it hands out the admin page exactly for the paths [admin] and
    [admin.html], with any number of slashes behind, as the route [/admin]
    does, and the employee page for [employee] and [employee.html], as the
    route [/employee] does. *)
Theorem serve_frontend_files file_exists path :
  let normalized := if String.eqb path "" then "" else rstrip_char "/" path in
  let file := serve_frontend file_exists path in
  (file = "admin.html" ∨ file = "index.html" ∨ file_exists file = true)
  ∧ (file = serve_admin ↔ normalized = "admin" ∨ normalized = "admin.html")
  ∧ (normalized = "employee" ∨ normalized = "employee.html" →
     file = serve_employee).
Proof.
  cbv zeta. unfold serve_frontend, serve_admin, serve_employee.
  set (normalized := if String.eqb path "" then "" else rstrip_char "/" path).
  destruct (String.eqb_spec normalized "admin") as [Ha|Ha].
  { cbn. split; [by left|]. split; [|rewrite Ha; by intros [?|?]].
    split; [by left|done]. }
  destruct (String.eqb_spec normalized "admin.html") as [Hah|Hah].
  { cbn. split; [by left|]. split; [|rewrite Hah; by intros [?|?]].
    split; [by right|done]. }
  cbn [orb].
  destruct (String.eqb_spec normalized "employee") as [He|He].
  { cbn. split; [by right; left|]. split; [|done]. split; [done|].
    by intros [?|?]. }
  destruct (String.eqb_spec normalized "employee.html") as [Heh|Heh].
  { cbn. split; [by right; left|]. split; [|done]. split; [done|].
    by intros [?|?]. }
  cbn [orb].
  assert (Hrest : ∀ file : string,
    (file_exists file = true ∨ file = "index.html") →
    (file = "admin.html" → False) →
    (file = "admin.html" ∨ file = "index.html" ∨ file_exists file = true)
    ∧ (file = "admin.html" ↔ normalized = "admin" ∨ normalized = "admin.html")
    ∧ (normalized = "employee" ∨ normalized = "employee.html" →
       file = "index.html")).
  { intros file Hfile Hnot. split; [tauto|]. split; [|by intros [?|?]].
    split; [done|]. by intros [?|?]. }
  destruct (String.eqb_spec normalized "") as [Hn|Hn].
  - destruct (file_exists "index.html") eqn:Hex; apply Hrest; auto; done.
  - destruct (file_exists normalized) eqn:Hex; apply Hrest; auto; done.
Qed.

(** X21.  A slash more at the end of the path does not change what
    [serve_frontend] hands out. *)
Theorem serve_frontend_trailing_slash file_exists path :
  serve_frontend file_exists (path +:+ "/") = serve_frontend file_exists path.
Proof.
  unfold serve_frontend.
  assert (Hnorm : (if String.eqb (path +:+ "/") "" then ""
                   else rstrip_char "/" (path +:+ "/"))
                  = (if String.eqb path "" then "" else rstrip_char "/" path)).
  { destruct (String.eqb_spec (path +:+ "/") "") as [Hp|_];
      [by apply snoc_nonempty in Hp|].
    rewrite rstrip_char_snoc. by destruct (String.eqb_spec path "") as [->|]. }
  by rewrite Hnorm.
Qed.

(** ** Seeds and malformed lookups *)

#[local] Arguments int_of_string : simpl never.
#[local] Arguments int_max_str_digits : simpl never.

Lemma append_cons c s1 s2 : String c s1 +:+ s2 = String c (s1 +:+ s2).
Proof. done. Qed.

Lemma append_empty s : "" +:+ s = s.
Proof. done. Qed.

Lemma int_blanks_cons c s :
  int_blanks (String c s) →
  is_int_space c = true ∧ Ascii.eqb c "_" = false ∧ digit_of c = None
  ∧ int_blanks s.
Proof.
  unfold int_blanks. cbn [list_ascii_of_string].
  intros [Hc Hs]%Forall_cons. split; [|split; [|split]]; [..|done];
    unfold is_int_space, digit_of;
    rewrite <- (ascii_nat_embedding c);
    set (n := nat_of_ascii c) in *; clearbody n;
    repeat (apply elem_of_cons in Hc as [->|Hc]; [done|]);
    by apply elem_of_nil in Hc.
Qed.

Lemma int_blanks_all_blank s : int_blanks s → all_blank s = true.
Proof.
  induction s as [|c s IH]; [done|].
  intros (Hc & _ & _ & Hs)%int_blanks_cons. cbn. by rewrite Hc, IH.
Qed.

Lemma skip_blanks_app w s : int_blanks w → skip_blanks (w +:+ s) = skip_blanks s.
Proof.
  induction w as [|c w IH]; [done|].
  intros (Hc & _ & _ & Hw)%int_blanks_cons.
  rewrite append_cons. cbn [skip_blanks]. rewrite Hc. by apply IH.
Qed.

Lemma count_digits_blanks w : int_blanks w → count_digits w = 0.
Proof.
  induction w as [|c w IH]; [done|].
  intros (_ & _ & Hd & Hw)%int_blanks_cons. cbn. rewrite Hd. by apply IH.
Qed.

Lemma parse_digits_blanks acc w :
  int_blanks w → parse_digits acc true w = Some acc.
Proof.
  destruct w as [|c w]; [done|]. intros Hw.
  pose proof (int_blanks_all_blank _ Hw) as Hall.
  apply int_blanks_cons in Hw as (_ & Hu & Hd & _).
  cbn [parse_digits]. by rewrite Hu, Hd, Hall.
Qed.

Lemma digit_char_spec d :
  d < 10 →
  digit_of (digit_char d) = Some (Z.of_nat d)
  ∧ Ascii.eqb (digit_char d) "_" = false
  ∧ is_int_space (digit_char d) = false
  ∧ Ascii.eqb (digit_char d) "-" = false
  ∧ Ascii.eqb (digit_char d) "+" = false.
Proof.
  intros Hd. do 10 (destruct d as [|d]; [done|]). lia.
Qed.

Lemma parse_digits_numeral ds w acc after_digit :
  decimal ds → int_blanks w → ds ≠ [] ∨ after_digit = true →
  parse_digits acc after_digit (numeral ds +:+ w)
  = Some (foldl (λ acc d, acc * 10 + Z.of_nat d)%Z acc ds).
Proof.
  intros Hds Hw. revert acc after_digit.
  induction Hds as [|d ds Hd _ IH]; intros acc after_digit Hne.
  - destruct Hne as [?| ->]; [done|]. rewrite append_empty. cbn [foldl].
    by apply parse_digits_blanks.
  - destruct (digit_char_spec d Hd) as (Hdig & Hu & _).
    cbn [numeral]. rewrite append_cons. cbn [parse_digits foldl].
    rewrite Hu, Hdig. apply IH. by right.
Qed.

Lemma count_digits_numeral ds w :
  decimal ds → int_blanks w → count_digits (numeral ds +:+ w) = length ds.
Proof.
  intros Hds Hw. induction Hds as [|d ds Hd _ IH].
  - rewrite append_empty. by apply count_digits_blanks.
  - destruct (digit_char_spec d Hd) as (Hdig & _).
    cbn [numeral]. rewrite append_cons. cbn [count_digits length].
    by rewrite Hdig, IH.
Qed.

(** [int] reads a numeral of at most [int_max_str_digits] digits, with or
    without a sign and blanks around it, as the integer the numeral spells,
    and refuses a longer one. *)
Lemma int_digits_numeral ds w :
  decimal ds → ds ≠ [] → int_blanks w →
  int_digits (numeral ds +:+ w)
  = if decide (length ds ≤ int_max_str_digits)
    then Some (numeral_value ds) else None.
Proof.
  intros Hds Hne Hw. unfold int_digits.
  rewrite (count_digits_numeral ds w Hds Hw).
  by rewrite (parse_digits_numeral ds w 0 false Hds Hw (or_introl Hne)).
Qed.

Lemma int_of_string_numeral sg ds w1 w2 :
  decimal ds → ds ≠ [] → int_blanks w1 → int_blanks w2 →
  int_of_string (w1 +:+ sign_string sg +:+ numeral ds +:+ w2)
  = if decide (length ds ≤ int_max_str_digits)
    then Some (sign_value sg (numeral_value ds)) else None.
Proof.
  intros Hds Hne Hw1 Hw2. unfold int_of_string.
  rewrite (skip_blanks_app w1 _ Hw1).
  pose proof (int_digits_numeral ds w2 Hds Hne Hw2) as Hdigits.
  destruct sg; cbn [sign_string sign_value].
  - rewrite append_empty. destruct ds as [|d ds]; [done|].
    pose proof (proj1 (Forall_cons _ _ _) Hds) as [Hd _].
    destruct (digit_char_spec d Hd) as (_ & _ & Hsp & Hminus & Hplus).
    cbn [numeral] in Hdigits |- *. rewrite append_cons in Hdigits |- *.
    cbn [skip_blanks]. by rewrite Hsp, Hminus, Hplus, Hdigits.
  - rewrite append_cons, append_empty. cbn [skip_blanks].
    change (is_int_space "+") with false. cbv iota.
    change (Ascii.eqb "+" "-") with false.
    change (Ascii.eqb "+" "+") with true. cbv iota. by rewrite Hdigits.
  - rewrite append_cons, append_empty. cbn [skip_blanks].
    change (is_int_space "-") with false. cbv iota.
    change (Ascii.eqb "-" "-") with true. cbv iota. rewrite Hdigits.
    by case_decide.
Qed.

Lemma admin_match_string_seed s st g :
  admin_match (Some (JObj [("seed", JStr s)])) st g
  = match int_of_string s with
    | Some z => admin_match (Some (JObj [("seed", JInt z)])) st g
    | None => (Reply 400 (BError ErrSeedNotNumber), st, g)
    end.
Proof.
  unfold admin_match, request_seed, dict_get. cbn [truthy].
  assert (field [("seed", JStr s)] "seed" = Some (JStr s)) as -> by done.
  cbn [py_int]. destruct (int_of_string s) as [z|]; [|done].
  by assert (field [("seed", JInt z)] "seed" = Some (JInt z)) as -> by done.
Qed.

(** X22.  The seed of a match request: a request without a body, with an
    empty object or with a null seed runs unseeded.  A seed that is a string
    holding a decimal numeral of at most 4300 digits, with or without a sign
    and with blanks around it, acts as the integer the numeral spells; a
    numeral of more digits is refused with 400, as is the empty string.  A
    seed that is a list or an object makes the handler die with TypeError.
    A refused request leaves store and generator as they are. *)
Theorem admin_match_seed_forms st g :
  admin_match (Some (JObj [])) st g = admin_match None st g
  ∧ admin_match (Some (JObj [("seed", JNull)])) st g = admin_match None st g
  ∧ (∀ sg ds w1 w2,
       decimal ds → ds ≠ [] → int_blanks w1 → int_blanks w2 →
       admin_match
         (Some (JObj [("seed",
                       JStr (w1 +:+ sign_string sg +:+ numeral ds +:+ w2))]))
         st g
       = if decide (length ds ≤ int_max_str_digits)
         then admin_match
                (Some (JObj [("seed",
                              JInt (sign_value sg (numeral_value ds)))]))
                st g
         else (Reply 400 (BError ErrSeedNotNumber), st, g))
  ∧ admin_match (Some (JObj [("seed", JStr "")])) st g
    = (Reply 400 (BError ErrSeedNotNumber), st, g)
  ∧ (∀ v, (∃ items, v = JArr items) ∨ (∃ fields, v = JObj fields) →
       admin_match (Some (JObj [("seed", v)])) st g
       = (Unhandled TypeError, st, g)).
Proof.
  split; [done|]. split; [done|]. split; [|split].
  - intros sg ds w1 w2 Hds Hne Hw1 Hw2.
    rewrite admin_match_string_seed,
      (int_of_string_numeral sg ds w1 w2 Hds Hne Hw1 Hw2).
    by case_decide.
  - by rewrite admin_match_string_seed.
  - by intros v [[items ->]|[fields ->]].
Qed.

(** X23.  A lookup whose body is no object, or whose name is given and not
    empty but no string (a number, a list, [true]), is not answered with
    400: the handler dies with AttributeError. *)
Theorem lookup_unhandled st :
  (∀ body, (∀ fields, body ≠ JObj fields) →
           lookup body st = Unhandled AttributeError)
  ∧ (∀ fields nv bv,
       field fields "name" = Some nv → field fields "birthdate" = Some bv →
       truthy nv = true → truthy bv = true → (∀ s, nv ≠ JStr s) →
       lookup (JObj fields) st = Unhandled AttributeError).
Proof.
  split.
  - intros body Hno. destruct body; try done. by destruct (Hno fields).
  - intros fields nv bv Hn Hb Htn Htb Hns. unfold lookup, dict_get.
    rewrite Hn, Hb. cbn. rewrite Htn, Htb. cbn.
    destruct nv; try done. by destruct (Hns s).
Qed.

(** ** Birthdates do not reach the matches *)

#[local] Instance Participant_inhabited : Inhabited Participant :=
  populate {| table := 0; name := ""; email := ""; birthdate := "" |}.

Lemma match_groups_agree {A} (f f' : A → Participant)
    (groups : list (Z * list A)) results g :
  (∀ x, name (f x) = name (f' x) ∧ email (f x) = email (f' x)) →
  match_groups (relabel f <$> groups) results g
  = match_groups (relabel f' <$> groups) results g.
Proof.
  intros Hagree. revert results g.
  induction groups as [|[t ms] rest IH]; intros results g; [done|].
  cbn [fmap list_fmap match_groups].
  change (relabel f (t, ms)) with (t, f <$> ms).
  change (relabel f' (t, ms)) with (t, f' <$> ms). cbv beta iota.
  rewrite !length_fmap. case_decide; [done|].
  rewrite !shuffle_fmap, !make_pairs_fmap, <- !list_fmap_compose.
  rewrite IH. do 2 f_equal.
  apply list_fmap_ext. intros i [x y] _. cbn.
  destruct (Hagree x) as [-> ->]. by destruct (Hagree y) as [-> ->].
Qed.

(** X24.  The matches do not depend on the birthdates: two participant
    lists that agree in tables, names and addresses get the same result
    from the same seed and generator. *)
Theorem make_matches_ignores_birthdates ps ps' seed g :
  person <$> ps = person <$> ps' →
  make_matches ps seed g = make_matches ps' seed g.
Proof.
  intros Hsame.
  assert (Hlen : length ps = length ps').
  { by rewrite <- (length_fmap person ps), Hsame, length_fmap. }
  assert (Hagree : ∀ i, person (ps !!! i) = person (ps' !!! i)).
  { intros i. rewrite !list_lookup_total_alt.
    assert (Hi : person <$> ps !! i = person <$> ps' !! i)
      by (by rewrite <- !list_lookup_fmap, Hsame).
    destruct (ps !! i), (ps' !! i); cbn in *; congruence. }
  assert (Hps : ps = (λ i, ps !!! i) <$> seq 0 (length ps)).
  { apply list_eq. intros i. rewrite list_lookup_fmap.
    destruct (decide (i < length ps)) as [Hi|Hi].
    - rewrite lookup_seq_lt by done. cbn.
      by apply list_lookup_lookup_total_lt.
    - rewrite lookup_seq_ge by lia. cbn. apply lookup_ge_None. lia. }
  assert (Hps' : ps' = (λ i, ps' !!! i) <$> seq 0 (length ps)).
  { rewrite Hlen. apply list_eq. intros i. rewrite list_lookup_fmap.
    destruct (decide (i < length ps')) as [Hi|Hi].
    - rewrite lookup_seq_lt by done. cbn.
      by apply list_lookup_lookup_total_lt.
    - rewrite lookup_seq_ge by lia. cbn. apply lookup_ge_None. lia. }
  unfold make_matches, group_by_table.
  fold (group_by table ps). fold (group_by table ps').
  rewrite Hps at 1. rewrite Hps' at 1.
  rewrite (group_by_fmap (λ i, ps !!! i) (λ i, table (ps !!! i)) table)
    by done.
  rewrite (group_by_fmap (λ i, ps' !!! i) (λ i, table (ps !!! i)) table).
  - apply match_groups_agree. intros i.
    pose proof (Hagree i) as Hi. unfold person in Hi. by simplify_eq.
  - intros i. pose proof (Hagree i) as Hi. unfold person in Hi.
    by simplify_eq.
Qed.

End Engine.

(** * The model on the sample data *)

Section Samples.

Import Sample.

Local Abbreviation run_matches := (make_matches nat Sample.seed_rng Sample.randbelow).
Local Abbreviation run_match_request :=
  (admin_match nat Sample.seed_rng Sample.randbelow).
Local Abbreviation run_upload := (admin_upload Sample.py_repr).
Local Abbreviation run_lookup := (lookup Sample.py_repr).

(** The example of the specification: upload, match, look up. *)
Example sample_flow :
  run_upload payload old_store = (Reply 200 (BUploaded 2), uploaded_store)
  ∧ (run_match_request (Some (JObj [("seed", JInt 7)])) uploaded_store 0).1
    = (Reply 200 (BMatched 2), matched_store)
  ∧ run_lookup (JObj [("name", JStr "Alice"); ("birthdate", JStr "900101")])
               matched_store
    = Reply 200 (BLookup "Alice" 1 "Bob" "b@x.com" (GiftGuide "Bob"))
  ∧ run_lookup (JObj bob_lookup) matched_store
    = Reply 200 (BLookup "Bob" 1 "Alice" "a@x.com" (GiftGuide "Alice"))
  ∧ run_lookup (JObj bob_lookup) uploaded_store
    = Reply 400 (BError ErrNotMatchedYet)
  ∧ run_lookup (JObj [("name", JStr "Bob"); ("birthdate", JStr "900101")])
               matched_store
    = Reply 403 (BError ErrBirthdateMismatch)
  ∧ run_lookup (JObj [("name", JStr "Zoe"); ("birthdate", JStr "900101")])
               matched_store
    = Reply 404 (BError ErrNameNotInRoster).
Proof. repeat split; vm_compute; reflexivity. Qed.

(** A row entered twice gives two participants who are each other's
    manitto; the match records then show the same name and address on both
    sides. *)
Example twice_roster_matches :
  (run_matches twice_roster None 0).1
  = inr [mkMatch 1 "Alice" "a@x.com" "Alice" "a@x.com";
         mkMatch 1 "Alice" "a@x.com" "Alice" "a@x.com"].
Proof. reflexivity. Qed.

Lemma roster_tables_ok :
  Forall (λ gr : Z * list Participant, 2 ≤ length gr.2) (group_by_table roster).
Proof. repeat constructor. Defined.

Lemma make_matches_one_outgoing_no_self_witness :
  Forall (λ gr : Z * list Participant, 2 ≤ length gr.2) (group_by_table roster)
  ∧ ∃ res g' (links : list (nat * nat)),
      run_matches roster (Some 7%Z) 0 = (inr res, g')
      ∧ links.*1 ≡ₚ seq 0 (length roster)
      ∧ Forall2 (λ m lk, gives roster lk.1 lk.2 m ∧ lk.1 ≠ lk.2) res links
      ∧ manitto <$> res ≡ₚ person <$> roster
      ∧ (NoDup (person <$> roster) →
         Forall (λ m, (manitto_name m, manitto_email m)
                      ≠ (manitti_name m, manitti_email m)) res).
Proof.
  split; [exact roster_tables_ok|].
  exact (make_matches_one_outgoing_no_self nat Sample.seed_rng Sample.randbelow
           roster (Some 7%Z) 0 roster_tables_ok).
Defined.

(** C1 as stated fails for a row entered twice: the table has two members,
    the call succeeds, and each of the two matches shows the same name and
    address as manitto and as manitti, with and without a seed. *)
Lemma make_matches_same_person_counterexample :
  Forall (λ gr : Z * list Participant, 2 ≤ length gr.2)
         (group_by_table twice_roster)
  ∧ (run_matches twice_roster None 0).1
    = inr [gift 1 alice alice; gift 1 alice alice]
  ∧ (run_matches twice_roster (Some 7%Z) 0).1
    = inr [gift 1 alice alice; gift 1 alice alice]
  ∧ Forall (λ m, (manitto_name m, manitto_email m)
                 = (manitti_name m, manitti_email m))
           [gift 1 alice alice; gift 1 alice alice].
Proof.
  split; [repeat constructor|]. split; [reflexivity|]. split; [reflexivity|].
  by repeat constructor.
Qed.

Lemma make_matches_one_incoming_witness :
  Forall (λ gr : Z * list Participant, 2 ≤ length gr.2) (group_by_table roster)
  ∧ ∃ res g' (links : list (nat * nat)),
      run_matches roster None 5 = (inr res, g')
      ∧ links.*2 ≡ₚ seq 0 (length roster)
      ∧ Forall2 (λ m lk, gives roster lk.1 lk.2 m ∧ lk.1 ≠ lk.2) res links
      ∧ manitti <$> res ≡ₚ person <$> roster.
Proof.
  split; [exact roster_tables_ok|].
  exact (make_matches_one_incoming nat Sample.seed_rng Sample.randbelow
           roster None 5 roster_tables_ok).
Defined.



Lemma lonely_roster_small_table :
  Exists (λ gr : Z * list Participant, length gr.2 < 2)
         (group_by_table lonely_roster).
Proof. apply Exists_cons_tl, Exists_cons_hd. cbn. lia. Defined.

Lemma small_table_aborts_witness :
  Exists (λ gr : Z * list Participant, length gr.2 < 2)
         (group_by_table lonely_roster)
  ∧ ∃ i t ms g',
      run_matches lonely_roster None 0 = (inl (TableTooSmall t), g')
      ∧ list_find (λ gr : Z * list Participant, length gr.2 < 2)
                  (group_by_table lonely_roster) = Some (i, (t, ms))
      ∧ ∀ body st g0, load_participants st = lonely_roster →
          (run_match_request body st g0).1.2 = st
          ∧ status_of (run_match_request body st g0).1.1 ≠ 200
          ∧ (∀ seed_val, request_seed body = inr seed_val →
               (run_match_request body st g0).1.1
               = Reply 400 (BError (ErrMatching (TableTooSmall t)))).
Proof.
  split; [exact lonely_roster_small_table|].
  exact (small_table_aborts nat Sample.seed_rng Sample.randbelow
           lonely_roster None 0 lonely_roster_small_table).
Defined.

Lemma upload_replaces_and_clears_witness :
  run_upload payload old_store = (Reply 200 (BUploaded 2), uploaded_store)
  ∧ status_of (Reply 200 (BUploaded 2)) = 200
  ∧ ∃ rows,
      payload = JArr rows
      ∧ Forall2 (λ row p, parse_row Sample.py_repr row = inr p) rows
                (participants_doc uploaded_store)
      ∧ Reply 200 (BUploaded 2) = Reply 200 (BUploaded (length rows))
      ∧ matches_doc uploaded_store = []
      ∧ admin_results uploaded_store = Reply 200 (BResults [])
      ∧ ∀ reqs g,
          forallb (λ req, negb (is_match_request req)) reqs = true →
          admin_results
            (serve nat Sample.seed_rng Sample.randbelow Sample.py_repr
                   reqs uploaded_store g).1
          = Reply 200 (BResults []).
Proof.
  split; [reflexivity|]. split; [reflexivity|].
  exact (upload_replaces_and_clears nat Sample.seed_rng Sample.randbelow
           Sample.py_repr payload old_store (Reply 200 (BUploaded 2))
           uploaded_store eq_refl eq_refl).
Defined.




Lemma make_matches_keeps_input_witness :
  ({[ 0 := roster ]} : gmap nat (list Participant)) !! 0 = Some roster
  ∧ ∃ h',
      make_matches_obj nat Sample.seed_rng Sample.randbelow 0 (Some 7%Z)
                       {[ 0 := roster ]} 0
      = Some ((run_matches roster (Some 7%Z) 0).1, h',
              (run_matches roster (Some 7%Z) 0).2)
      ∧ h' !! 0 = Some roster
      ∧ ∀ l, is_Some (({[ 0 := roster ]} : gmap nat (list Participant)) !! l) →
             h' !! l = ({[ 0 := roster ]} : gmap nat (list Participant)) !! l.
Proof.
  split; [reflexivity|].
  exact (make_matches_keeps_input nat Sample.seed_rng Sample.randbelow
           {[ 0 := roster ]} 0 roster (Some 7%Z) 0 eq_refl).
Defined.

(** ** The further properties on the sample data *)

Lemma one_blank : blank " ".
Proof. repeat constructor. Defined.

Lemma normalize_email_insensitive_witness :
  blank " " ∧ blank " "
  ∧ normalize_email (" " +:+ "A@X.com" +:+ " ") = normalize_email "A@X.com"
  ∧ normalize_email (lower "A@X.com") = normalize_email "A@X.com"
  ∧ trimmed (normalize_email "A@X.com")
  ∧ lower (normalize_email "A@X.com") = normalize_email "A@X.com".
Proof.
  split; [exact one_blank|]. split; [exact one_blank|].
  exact (normalize_email_insensitive "A@X.com" " " " " one_blank one_blank).
Defined.

Lemma roster_run :
  run_matches roster (Some 7%Z) 0 = (inr roster_matches, 47).
Proof. reflexivity. Defined.

Lemma make_matches_within_tables_witness :
  run_matches roster (Some 7%Z) 0 = (inr roster_matches, 47)
  ∧ length roster_matches = length roster
  ∧ Forall (λ m, ∃ a b, a ∈ roster ∧ b ∈ roster
                        ∧ table a = match_table m ∧ table b = match_table m
                        ∧ m = pair_match (match_table m) (a, b))
           roster_matches.
Proof.
  split; [exact roster_run|].
  exact (make_matches_within_tables nat Sample.seed_rng Sample.randbelow
           roster (Some 7%Z) 0 roster_matches 47 roster_run).
Defined.


Lemma upload_refused_leaves_store_witness :
  status_of (run_upload (JArr (good_rows ++ bad_row :: more_rows))
                        old_store).1 = 400
  ∧ (run_upload (JArr (good_rows ++ bad_row :: more_rows)) old_store).2
    = old_store
  ∧ ((∀ rows, JArr (good_rows ++ bad_row :: more_rows) ≠ JArr rows)
     ∨ ∃ good bad rest e,
         JArr (good_rows ++ bad_row :: more_rows) = JArr (good ++ bad :: rest)
         ∧ Forall (λ row, ∃ p, parse_row Sample.py_repr row = inr p) good
         ∧ parse_row Sample.py_repr bad = inl e
         ∧ (e = KeyError ∨ e = ValueError)).
Proof.
  split; [reflexivity|].
  exact (upload_refused_leaves_store Sample.py_repr
           (JArr (good_rows ++ bad_row :: more_rows)) old_store eq_refl).
Defined.

Lemma good_rows_parse :
  Forall (λ row, ∃ p, parse_row Sample.py_repr row = inr p) good_rows.
Proof. repeat constructor. by eexists. Defined.

Lemma upload_first_bad_row_witness :
  Forall (λ row, ∃ p, parse_row Sample.py_repr row = inr p) good_rows
  ∧ parse_row Sample.py_repr bad_row = inl KeyError
  ∧ run_upload (JArr (good_rows ++ bad_row :: more_rows)) old_store
    = (Reply 400 (BError (ErrBadFormat KeyError)), old_store).
Proof.
  split; [exact good_rows_parse|]. split; [reflexivity|].
  exact (upload_first_bad_row Sample.py_repr old_store good_rows bad_row
           more_rows KeyError good_rows_parse eq_refl).
Defined.

Lemma upload_round_trip_witness :
  run_upload payload old_store = (Reply 200 (BUploaded 2), uploaded_store)
  ∧ status_of (Reply 200 (BUploaded 2)) = 200
  ∧ Forall normalized (participants_doc uploaded_store)
  ∧ load_participants uploaded_store = participants_doc uploaded_store.
Proof.
  split; [reflexivity|]. split; [reflexivity|].
  exact (upload_round_trip Sample.py_repr payload old_store
           (Reply 200 (BUploaded 2)) uploaded_store eq_refl eq_refl).
Defined.

Lemma match_round_trip_witness :
  status_of (run_match_request seed_7 uploaded_store 0).1.1 = 200
  ∧ load_matches (run_match_request seed_7 uploaded_store 0).1.2
    = matches_doc (run_match_request seed_7 uploaded_store 0).1.2
  ∧ admin_results (run_match_request seed_7 uploaded_store 0).1.2
    = Reply 200
        (BResults (matches_doc (run_match_request seed_7 uploaded_store 0).1.2)).
Proof.
  split; [reflexivity|].
  exact (match_round_trip nat Sample.seed_rng Sample.randbelow seed_7
           uploaded_store 0 eq_refl).
Defined.

Lemma bob_nonempty : "Bob" ≠ "".
Proof. discriminate. Defined.

Lemma bob_born_nonempty : "900202" ≠ "".
Proof. discriminate. Defined.

Lemma lookup_ignores_blanks_witness :
  run_lookup (JObj [("name", JStr (" " +:+ "Bob" +:+ " "));
                    ("birthdate", JStr (" " +:+ "900202" +:+ " "))])
             matched_store
  = run_lookup (JObj [("name", JStr "Bob"); ("birthdate", JStr "900202")])
               matched_store.
Proof.
  exact (lookup_ignores_blanks Sample.py_repr matched_store "Bob" "900202"
           " " " " " " " " bob_nonempty bob_born_nonempty
           one_blank one_blank one_blank one_blank).
Defined.

Lemma lookup_ok_sound_witness :
  run_lookup (JObj bob_lookup) matched_store
  = Reply 200 (BLookup "Bob" 1 "Alice" "a@x.com" (GiftGuide "Alice"))
  ∧ ∃ fields n b i p k m,
      JObj bob_lookup = JObj fields
      ∧ field fields "name" = Some (JStr n)
      ∧ field fields "birthdate" = Some b
      ∧ list_find (λ p, normalize_name (name p) = normalize_name n)
                  (load_participants matched_store) = Some (i, p)
      ∧ birthdate p = normalize_birthdate (py_str Sample.py_repr b)
      ∧ list_find (λ m, normalize_name (manitto_name m) = normalize_name n)
                  (load_matches matched_store) = Some (k, m)
      ∧ BLookup "Bob" 1 "Alice" "a@x.com" (GiftGuide "Alice")
        = BLookup (manitto_name m) (match_table m) (manitti_name m)
                  (manitti_email m) (GiftGuide (manitti_name m)).
Proof.
  split; [reflexivity|].
  exact (lookup_ok_sound Sample.py_repr (JObj bob_lookup) matched_store
           _ eq_refl).
Defined.

Lemma lookup_needs_matches_witness :
  matches_doc uploaded_store = []
  ∧ status_of (run_lookup (JObj bob_lookup) uploaded_store) ≠ 200.
Proof.
  split; [reflexivity|].
  exact (lookup_needs_matches Sample.py_repr (JObj bob_lookup)
           uploaded_store eq_refl).
Defined.

Lemma uploaded_store_consistent :
  consistent nat Sample.seed_rng Sample.randbelow uploaded_store.
Proof. by left. Defined.

Lemma sample_replies_answered :
  Forall (λ r, status_of r ≠ 500)
         (replies nat Sample.seed_rng Sample.randbelow Sample.py_repr
                  [PostMatch seed_7; PostLookup (JObj bob_lookup); GetResults]
                  uploaded_store 0).
Proof. repeat constructor; discriminate. Defined.

Lemma serve_keeps_consistent_witness :
  consistent nat Sample.seed_rng Sample.randbelow uploaded_store
  ∧ Forall (λ r, status_of r ≠ 500)
           (replies nat Sample.seed_rng Sample.randbelow Sample.py_repr
                    [PostMatch seed_7; PostLookup (JObj bob_lookup); GetResults]
                    uploaded_store 0)
  ∧ consistent nat Sample.seed_rng Sample.randbelow
      (serve nat Sample.seed_rng Sample.randbelow Sample.py_repr
             [PostMatch seed_7; PostLookup (JObj bob_lookup); GetResults]
             uploaded_store 0).1.
Proof.
  split; [exact uploaded_store_consistent|].
  split; [exact sample_replies_answered|].
  exact (serve_keeps_consistent nat Sample.seed_rng Sample.randbelow
           Sample.py_repr _ uploaded_store 0 uploaded_store_consistent
           sample_replies_answered).
Defined.

Lemma payload_bob_only :
  ∀ i x, participants_doc (run_upload payload old_store).2 !! i = Some x →
         name x = normalize_name "Bob" → i = 1.
Proof.
  intros [|[|i]] x Hx Hn; [exfalso|reflexivity|exfalso].
  - vm_compute in Hx. injection Hx as <-. vm_compute in Hn. discriminate.
  - vm_compute in Hx. discriminate.
Defined.

Lemma upload_match_lookup_witness :
  status_of (run_upload payload old_store).1 = 200
  ∧ status_of (run_match_request seed_7 (run_upload payload old_store).2 0).1.1
    = 200
  ∧ ∃ p q,
      participants_doc (run_upload payload old_store).2 !! 1 = Some p
      ∧ q ∈ participants_doc (run_upload payload old_store).2
      ∧ table q = table p ∧ name q ≠ name p
      ∧ run_lookup (JObj [("name", JStr "Bob"); ("birthdate", JStr "900202")])
                   (run_match_request seed_7
                      (run_upload payload old_store).2 0).1.2
        = Reply 200 (BLookup (name p) (table p) (name q) (email q)
                             (GiftGuide (name q))).
Proof.
  split; [reflexivity|]. split; [reflexivity|].
  exact (upload_match_lookup nat Sample.seed_rng Sample.randbelow
           Sample.py_repr
           [row 1 "Alice" "A@X.com" "900101"; row 1 "Bob" "b@x.com" "900202"]
           old_store seed_7 0 1 bob_fields "Bob" "900202"
           eq_refl eq_refl payload_bob_only eq_refl eq_refl eq_refl
           bob_nonempty bob_born_nonempty).
Defined.

Lemma make_matches_ignores_birthdates_witness :
  person <$> roster = person <$> roster_reborn
  ∧ run_matches roster (Some 7%Z) 0 = run_matches roster_reborn (Some 7%Z) 0.
Proof.
  split; [reflexivity|].
  exact (make_matches_ignores_birthdates nat Sample.seed_rng
           Sample.randbelow roster roster_reborn (Some 7%Z) 0 eq_refl).
Defined.

End Samples.
